(** * atomicfizz-caps: the claim and progression engine of [server.js]

    A shallow embedding of the server's game logic and the properties of
    it that its specification states.

    Modelling conventions.
    - JavaScript numbers that the server only adds, subtracts and compares
      as whole quantities (caps, level, experience, health, reputation,
      timestamps in milliseconds) are [Z].  Loot weights, the random draws
      and distances are exact rationals [Q]: floating-point rounding is not
      modelled.
    - Object literals used as dictionaries ([players], [locations],
      [recipes], the [bag] of [craftItem]) are finite maps or association
      lists over their own keys; keys inherited from [Object.prototype]
      are not modelled.
    - Mutation of the player object is explicit state passing: every
      operation returns the new player next to its result.
    - [Math.random()] and [Date.now()] are inputs of the function that
      reads them. *)

From Stdlib Require Import ZArith QArith Qminmax Qround Lia Lqa.
From stdpp Require Import base gmap strings list pretty.

Local Open Scope Z_scope.

(** ** Data model *)

(** A stat payload value: the tables hold numbers and one boolean
    ([energy: true]). *)
Inductive StatValue : Type :=
| SNum (z : Z)
| SBool (b : bool).

Definition Stats : Type := list (string * StatValue).

(** [stats.key], [None] standing for [undefined]. *)
Fixpoint stat_get (key : string) (s : Stats) : option StatValue :=
  match s with
  | [] => None
  | (k, v) :: rest => if String.eqb k key then Some v else stat_get key rest
  end.

(** JavaScript truthiness of a property read. *)
Definition truthy (v : option StatValue) : bool :=
  match v with
  | None => false
  | Some (SNum z) => negb (z =? 0)
  | Some (SBool b) => b
  end.

(** [v || 0] used in an addition: the numeric value of a truthy operand. *)
Definition num_or_zero (v : option StatValue) : Z :=
  match v with
  | None => 0
  | Some (SNum z) => z
  | Some (SBool b) => if b then 1 else 0
  end.

(** An inventory item, as built by the claim handler and by [craftItem]. *)
Record Item : Type := mkItem {
  item_id : string;
  item_name : string;
  item_type : string;
  item_rarity : string;
  item_stats : Stats;
  item_source : string;
  item_ts : Z;
  item_nftMint : option string
}.

(** An entry of a location's loot table. *)
Record LootEntry : Type := mkLoot {
  loot_id : string;
  loot_name : string;
  loot_type : string;
  loot_weight : Q;
  loot_rarity : string;
  loot_stats : Stats
}.

Record FactionRep : Type := mkRep {
  brotherhood : Z;
  raiders : Z;
  vault : Z
}.

Record Gear : Type := mkGear {
  gear_head : option Item;
  gear_body : option Item;
  gear_weapon : option Item;
  gear_accessory : option Item
}.

Record Player : Type := mkPlayer {
  wallet : string;
  caps : Z;
  lvl : Z;
  xp : Z;
  hp : Z;
  max_hp : Z;
  lastClaim : Z;
  factionRep : FactionRep;
  inventory : list Item;
  gear : Gear;
  cooldowns_claim : Z
}.

Definition set_caps (v : Z) (p : Player) : Player :=
  mkPlayer (wallet p) v (lvl p) (xp p) (hp p) (max_hp p) (lastClaim p)
           (factionRep p) (inventory p) (gear p) (cooldowns_claim p).
Definition set_lvl (v : Z) (p : Player) : Player :=
  mkPlayer (wallet p) (caps p) v (xp p) (hp p) (max_hp p) (lastClaim p)
           (factionRep p) (inventory p) (gear p) (cooldowns_claim p).
Definition set_xp (v : Z) (p : Player) : Player :=
  mkPlayer (wallet p) (caps p) (lvl p) v (hp p) (max_hp p) (lastClaim p)
           (factionRep p) (inventory p) (gear p) (cooldowns_claim p).
Definition set_hp (v : Z) (p : Player) : Player :=
  mkPlayer (wallet p) (caps p) (lvl p) (xp p) v (max_hp p) (lastClaim p)
           (factionRep p) (inventory p) (gear p) (cooldowns_claim p).
Definition set_max_hp (v : Z) (p : Player) : Player :=
  mkPlayer (wallet p) (caps p) (lvl p) (xp p) (hp p) v (lastClaim p)
           (factionRep p) (inventory p) (gear p) (cooldowns_claim p).
Definition set_factionRep (v : FactionRep) (p : Player) : Player :=
  mkPlayer (wallet p) (caps p) (lvl p) (xp p) (hp p) (max_hp p) (lastClaim p)
           v (inventory p) (gear p) (cooldowns_claim p).
Definition set_inventory (v : list Item) (p : Player) : Player :=
  mkPlayer (wallet p) (caps p) (lvl p) (xp p) (hp p) (max_hp p) (lastClaim p)
           (factionRep p) v (gear p) (cooldowns_claim p).
Definition set_gear (v : Gear) (p : Player) : Player :=
  mkPlayer (wallet p) (caps p) (lvl p) (xp p) (hp p) (max_hp p) (lastClaim p)
           (factionRep p) (inventory p) v (cooldowns_claim p).
Definition set_cooldowns_claim (v : Z) (p : Player) : Player :=
  mkPlayer (wallet p) (caps p) (lvl p) (xp p) (hp p) (max_hp p) (lastClaim p)
           (factionRep p) (inventory p) (gear p) v.

(** The record [ensurePlayer] creates for an unknown wallet. *)
Definition default_player (w : string) : Player :=
  {| wallet := w; caps := 0; lvl := 1; xp := 0; hp := 100; max_hp := 100;
     lastClaim := 0;
     factionRep := mkRep 0 0 0;
     inventory := [];
     gear := mkGear None None None None;
     cooldowns_claim := 0 |}.

(** ** Progression ledger: [grantCapsAndXp] *)

(** One pass of the [while] body. *)
Definition level_up (nextLvXp : Z) (p : Player) : Player :=
  let p1 := set_xp (xp p - nextLvXp) p in
  let p2 := set_lvl (lvl p1 + 1) p1 in
  let p3 := set_max_hp (max_hp p2 + 10) p2 in
  set_hp (max_hp p3) p3.

(** The [while (player.xp >= nextLvXp)] loop.  [nextLvXp] is the constant
    computed before the loop; the loop does not terminate when it is not
    positive, so the model runs on fuel and [None] means the fuel ran
    out. *)
Fixpoint level_loop (fuel : nat) (nextLvXp : Z) (p : Player) (leveledUp : bool)
  : option (Player * bool) :=
  if nextLvXp <=? xp p then
    match fuel with
    | O => None
    | S fuel' => level_loop fuel' nextLvXp (level_up nextLvXp p) true
    end
  else Some (p, leveledUp).

Definition grantCapsAndXp (fuel : nat) (p : Player) (capsEarned xpEarned : Z)
  : option (Player * bool) :=
  let p1 := set_caps (caps p + capsEarned) p in
  let p2 := set_xp (xp p1 + xpEarned) p1 in
  let nextLvXp := lvl p2 * 100 in
  level_loop fuel nextLvXp p2 false.

(** The loop as the specification words it: the threshold is read from the
    current level at every iteration. *)
Fixpoint spec_level_loop (fuel : nat) (p : Player) (leveledUp : bool)
  : option (Player * bool) :=
  if lvl p * 100 <=? xp p then
    match fuel with
    | O => None
    | S fuel' => spec_level_loop fuel' (level_up (lvl p * 100) p) true
    end
  else Some (p, leveledUp).

Definition spec_grant (fuel : nat) (p : Player) (capsEarned xpEarned : Z)
  : option (Player * bool) :=
  let p1 := set_caps (caps p + capsEarned) p in
  let p2 := set_xp (xp p1 + xpEarned) p1 in
  spec_level_loop fuel p2 false.

(** ** Loot roller: [rollLoot] *)

Definition Qlt_bool (a b : Q) : bool := negb (Qle_bool b a).

(** [Math.min(0.20, (player?.factionRep?.brotherhood || 0) * 0.002)] *)
Definition repBonus (p : Player) : Q :=
  Qmin (20 # 100) (inject_Z (brotherhood (factionRep p)) * (2 # 1000))%Q.

Definition is_rare_or_legendary (rarity : string) : bool :=
  String.eqb rarity "rare" || String.eqb rarity "legendary".

(** The bonus of one entry. *)
Definition entry_bonus (rep_bonus : Q) (e : LootEntry) : Q :=
  if is_rare_or_legendary (loot_rarity e) then rep_bonus else 0%Q.

(** [{ ...e, weight: e.weight * (1 + bonus) }] *)
Definition adjust_entry (rep_bonus : Q) (e : LootEntry) : LootEntry :=
  mkLoot (loot_id e) (loot_name e) (loot_type e)
         (loot_weight e * (1 + entry_bonus rep_bonus e))%Q
         (loot_rarity e) (loot_stats e).

(** [adjusted.reduce((sum, e) => sum + e.weight, 0)] *)
Definition total_weight (adjusted : list LootEntry) : Q :=
  fold_left (fun sum e => (sum + loot_weight e)%Q) adjusted 0%Q.

(** [for (const e of adjusted) { if ((r -= e.weight) <= 0) return e; }
    return null;] *)
Fixpoint pick (r : Q) (adjusted : list LootEntry) : option LootEntry :=
  match adjusted with
  | [] => None
  | e :: rest =>
      let r' := (r - loot_weight e)%Q in
      if Qle_bool r' 0 then Some e else pick r' rest
  end.

(** [rand] is the value of [Math.random()], a number in [[0, 1)]. *)
Definition rollLoot (lootTable : list LootEntry) (player : Player) (rand : Q)
  : option LootEntry :=
  let adjusted := map (adjust_entry (repBonus player)) lootTable in
  let total := total_weight adjusted in
  pick (rand * total)%Q adjusted.

(** ** Encounter resolver: [rollEncounter] *)

Definition rollEncounter (player : Player) (roll : Q) : Player * option string :=
  let rep := factionRep player in
  if Qlt_bool roll (18 # 100) then
    let p1 := set_hp (Z.max 0 (hp player - 12)) player in
    (set_factionRep (mkRep (brotherhood rep) (raiders rep + 4) (vault rep)) p1,
     Some "Raider ambush! Lost 12 HP.")
  else if Qlt_bool roll (28 # 100) then
    (set_factionRep (mkRep (brotherhood rep + 6) (raiders rep) (vault rep)) player,
     Some "Brotherhood patrol! Gained 6 reputation.")
  else if Qlt_bool roll (34 # 100) then
    let p1 := set_hp (Z.min (max_hp player) (hp player + 12)) player in
    (set_factionRep (mkRep (brotherhood rep) (raiders rep) (vault rep + 5)) p1,
     Some "Vault Dweller aid! Restored 12 HP.")
  else (player, None).

(** ** Equipment: [equipItem] *)

Inductive Slot : Type := SlotHead | SlotBody | SlotWeapon | SlotAccessory.

(** The chain of conditionals on [item.type]; [None] is [null]. *)
Definition slot_of_type (ty : string) : option Slot :=
  if String.eqb ty "head" then Some SlotHead
  else if String.eqb ty "body" then Some SlotBody
  else if String.eqb ty "weapon" then Some SlotWeapon
  else if String.eqb ty "accessory" then Some SlotAccessory
  else None.

Definition gear_get (s : Slot) (g : Gear) : option Item :=
  match s with
  | SlotHead => gear_head g
  | SlotBody => gear_body g
  | SlotWeapon => gear_weapon g
  | SlotAccessory => gear_accessory g
  end.

(** [player.gear[slot] = item] *)
Definition gear_set (s : Slot) (it : Item) (g : Gear) : Gear :=
  match s with
  | SlotHead => mkGear (Some it) (gear_body g) (gear_weapon g) (gear_accessory g)
  | SlotBody => mkGear (gear_head g) (Some it) (gear_weapon g) (gear_accessory g)
  | SlotWeapon => mkGear (gear_head g) (gear_body g) (Some it) (gear_accessory g)
  | SlotAccessory => mkGear (gear_head g) (gear_body g) (gear_weapon g) (Some it)
  end.

Inductive EquipResult : Type :=
| EquipError (error : string)
| EquipSuccess (slot : Slot) (item : Item).

Definition equipItem (player : Player) (itemId : string) : Player * EquipResult :=
  match List.find (fun i => String.eqb (item_id i) itemId) (inventory player) with
  | None => (player, EquipError "Item not found")
  | Some item =>
      match slot_of_type (item_type item) with
      | None => (player, EquipError "Item is not equippable")
      | Some slot =>
          let p1 := set_gear (gear_set slot item (gear player)) player in
          let defense := stat_get "defense" (item_stats item) in
          let p2 :=
            if truthy defense then
              let p' := set_max_hp (100 + num_or_zero defense) p1 in
              set_hp (Z.min (hp p') (max_hp p')) p'
            else p1 in
          (p2, EquipSuccess slot item)
      end
  end.

(** ** Crafting: [craftItem] *)

Record Recipe : Type := mkRecipe {
  recipe_name : string;
  recipe_type : string;
  recipe_rarity : string;
  recipe_requires : list (string * nat);
  recipe_stats : Stats
}.

(** The recipe table, and the material lists in key order
    ([Object.keys] yields string keys in insertion order). *)
Definition recipes : list (string * Recipe) :=
  [ ("scav_helmet",
     mkRecipe "Scavenger Helmet" "head" "uncommon"
              [("scrap_metal", 3%nat); ("duct_tape", 1%nat)]
              [("defense", SNum 5)]);
    ("makeshift_rifle",
     mkRecipe "Makeshift Rifle" "weapon" "uncommon"
              [("scrap_metal", 2%nat); ("rare_tech", 1%nat)]
              [("attack", SNum 12)]) ].

Fixpoint recipe_lookup (recipeId : string) (tbl : list (string * Recipe))
  : option Recipe :=
  match tbl with
  | [] => None
  | (k, r) :: rest => if String.eqb k recipeId then Some r else recipe_lookup recipeId rest
  end.

(** [bag[it.id] = bag[it.id] || []; bag[it.id].push(idx)] *)
Definition bag_push (bag : gmap string (list nat)) (id : string) (idx : nat)
  : gmap string (list nat) :=
  <[id := default [] (bag !! id) ++ [idx]]> bag.

(** The [forEach((it, idx) => ...)] over the inventory, from index [idx]. *)
Fixpoint build_bag (idx : nat) (inv : list Item) (bag : gmap string (list nat))
  : gmap string (list nat) :=
  match inv with
  | [] => bag
  | it :: rest => build_bag (S idx) rest (bag_push bag (item_id it) idx)
  end.

(** [(bag[matId]?.length || 0)] *)
Definition have (bag : gmap string (list nat)) (matId : string) : nat :=
  length (default [] (bag !! matId)).

(** The checking loop: the message of the first material found short. *)
Fixpoint check_materials (needed : list (string * nat)) (bag : gmap string (list nat))
  : option string :=
  match needed with
  | [] => None
  | (matId, n) :: rest =>
      if (have bag matId <? n)%nat
      then Some ("Missing " +:+ matId +:+ " x" +:+ pretty (n - have bag matId)%nat)
      else check_materials rest bag
  end.

(** State of the consuming loops: they either run to the end or stop on
    a [TypeError] ([bag[matId]] undefined), leaving the inventory as it is
    at that point. *)
Inductive Consumed : Type :=
| ConsumeDone (bag : gmap string (list nat)) (inv : list Item)
| ConsumeTypeError (inv : list Item).

(** [inventory.splice(idx, 1)] where [idx] is the result of [pop()]:
    an index past the end removes nothing, [undefined] counts as 0. *)
Definition splice1 (idx : option nat) (inv : list Item) : list Item :=
  match idx with
  | Some i => delete i inv
  | None => delete 0%nat inv
  end.

(** The inner loop: [n] times [idx = bag[matId].pop(); splice(idx, 1)]. *)
Fixpoint consume_material (n : nat) (matId : string)
         (bag : gmap string (list nat)) (inv : list Item) : Consumed :=
  match n with
  | O => ConsumeDone bag inv
  | S n' =>
      match bag !! matId with
      | None => ConsumeTypeError inv
      | Some idxs =>
          consume_material n' matId (<[matId := removelast idxs]> bag)
                           (splice1 (last idxs) inv)
      end
  end.

(** The outer loop over [Object.keys(needed)]. *)
Fixpoint consume (needed : list (string * nat))
         (bag : gmap string (list nat)) (inv : list Item) : Consumed :=
  match needed with
  | [] => ConsumeDone bag inv
  | (matId, n) :: rest =>
      match consume_material n matId bag inv with
      | ConsumeDone bag' inv' => consume rest bag' inv'
      | ConsumeTypeError inv' => ConsumeTypeError inv'
      end
  end.

Inductive CraftResult : Type :=
| CraftError (error : string)
| CraftSuccess (item : Item)
| CraftThrow.

(** [now_id] and [now_ts] are the two readings of [Date.now()]. *)
Definition crafted_item (recipeId : string) (recipe : Recipe) (now_id now_ts : Z) : Item :=
  {| item_id := recipeId +:+ "_" +:+ pretty now_id;
     item_name := recipe_name recipe;
     item_type := recipe_type recipe;
     item_rarity := recipe_rarity recipe;
     item_stats := recipe_stats recipe;
     item_source := "crafting";
     item_ts := now_ts;
     item_nftMint := None |}.

Definition craftItem (player : Player) (recipeId : string) (now_id now_ts : Z)
  : Player * CraftResult :=
  match recipe_lookup recipeId recipes with
  | None => (player, CraftError "Unknown recipe")
  | Some recipe =>
      let needed := recipe_requires recipe in
      let bag := build_bag 0 (inventory player) ∅ in
      match check_materials needed bag with
      | Some msg => (player, CraftError msg)
      | None =>
          match consume needed bag (inventory player) with
          | ConsumeTypeError inv' => (set_inventory inv' player, CraftThrow)
          | ConsumeDone _ inv' =>
              let crafted := crafted_item recipeId recipe now_id now_ts in
              (set_inventory (inv' ++ [crafted]) player, CraftSuccess crafted)
          end
      end
  end.

(** ** Configuration and static tables *)

Record Config : Type := mkConfig {
  COOLDOWN_MS : Z;
  DEFAULT_RADIUS : Q;
  SIMULATE_MINT : bool
}.

Record Location : Type := mkLocation {
  loc_id : string;
  loc_name : string;
  loc_lat : Q;
  loc_lng : Q;
  loc_radiusM : Q;
  loc_lootTable : list LootEntry
}.

Definition nukaTown (cfg : Config) : Location :=
  mkLocation "nukaTown" "NukaTown" (36025 # 1000) (- (115037 # 1000)) (DEFAULT_RADIUS cfg)
    [ mkLoot "scrap_metal" "Scrap Metal" "material" 50 "common" [("value", SNum 1)];
      mkLoot "ammo_pack" "Ammo Pack" "consumable" 30 "uncommon" [("ammo", SNum 20)];
      mkLoot "rare_tech" "Rare Tech" "material" 15 "rare" [("intel", SNum 5)];
      mkLoot "legendary_relic" "Legendary Relic" "artifact" 5 "legendary"
             [("charisma", SNum 10)] ].

Definition vault13 : Location :=
  mkLocation "vault13" "Vault 13" (3603 # 100) (- (11502 # 100)) 100
    [ mkLoot "duct_tape" "Duct Tape" "material" 40 "common" [("value", SNum 1)];
      mkLoot "med_x" "Med-X" "consumable" 25 "uncommon" [("heal", SNum 15)];
      mkLoot "laser_rifle" "Laser Rifle" "weapon" 20 "rare"
             [("attack", SNum 25); ("energy", SBool true)];
      mkLoot "t45_power_armor" "T-45 Power Armor" "body" 15 "legendary"
             [("defense", SNum 30); ("carry", SNum 10)] ].

Definition locations (cfg : Config) (locationId : string) : option Location :=
  if String.eqb locationId "nukaTown" then Some (nukaTown cfg)
  else if String.eqb locationId "vault13" then Some vault13
  else None.

(** ** The player store and [ensurePlayer] *)

Definition ensurePlayer (w : string) (players : gmap string Player)
  : gmap string Player * Player :=
  match players !! w with
  | Some p => (players, p)
  | None => (<[w := default_player w]> players, default_player w)
  end.

(** ** External settlement stubs *)

(** What the network call inside [maybeMintCapsOnChain] does: it yields a
    signature or throws. *)
Inductive MintOutcome : Type :=
| Minted (sig : string)
| MintThrew (e : string).

Inductive ChainResult : Type :=
| ChainTx (tx : string) (explorer : option string)
| ChainError (error detail : string).

Definition maybeMintCapsOnChain (cfg : Config) (net : MintOutcome) : ChainResult :=
  if SIMULATE_MINT cfg then ChainTx "SIMULATED_TX" None
  else match net with
       | Minted sig =>
           ChainTx sig (Some ("https://solscan.io/tx/" +:+ sig +:+ "?cluster=devnet"))
       | MintThrew e => ChainError "Mint failed" e
       end.

(** The [nftMint] field of [maybeMintNftForLoot]'s result, if any. *)
Definition maybeMintNftForLoot (cfg : Config) (loot : LootEntry) : option string :=
  if negb (is_rare_or_legendary (loot_rarity loot)) then None
  else if SIMULATE_MINT cfg then Some "SIMULATED_NFT"
  else None.

(** ** Endpoints *)

(** [!field] for a body field that is absent or a string. *)
Definition missing (field : option string) : bool :=
  match field with
  | None => true
  | Some s => String.eqb s ""
  end.
















(** *** [POST /claim-survival] *)

Record ClaimRequest : Type := mkClaimRequest {
  req_wallet : option string;
  req_locationId : option string;
  req_lat : option Q;
  req_lng : option Q;
  req_eventName : option string
}.

Record PlayerSummary : Type := mkSummary {
  ps_wallet : string;
  ps_caps : Z;
  ps_lvl : Z;
  ps_xp : Z;
  ps_hp : Z;
  ps_max_hp : Z;
  ps_factionRep : FactionRep;
  ps_inventoryCount : nat;
  ps_gear : Gear
}.

Definition summary (p : Player) : PlayerSummary :=
  mkSummary (wallet p) (caps p) (lvl p) (xp p) (hp p) (max_hp p)
            (factionRep p) (length (inventory p)) (gear p).

Record ClaimBody : Type := mkClaimBody {
  cb_location : string;
  cb_loot : option Item;
  cb_encounter : option string;
  cb_capsEarned : Z;
  cb_leveledUp : bool;
  cb_player : PlayerSummary;
  cb_chain : option ChainResult;
  cb_cooldownEndsAt : Z
}.

Inductive ClaimResponse : Type :=
| ClaimBadRequest
| ClaimUnknownLocation
| ClaimCooldownActive (remainingMs : Z)
| ClaimOutOfRange (distance : Z) (allowedM : Q)
| ClaimOk (body : ClaimBody).

(** [Math.round] *)
Definition js_round (x : Q) : Z := Qfloor (x + (1 # 2)).

(** [dist > (loc.radiusM || DEFAULT_RADIUS)] *)
Definition out_of_range (cfg : Config) (loc : Location) (dist : Q) : bool :=
  let allowed :=
    if Qeq_bool (loc_radiusM loc) 0 then DEFAULT_RADIUS cfg else loc_radiusM loc in
  Qlt_bool allowed dist.

(** The proximity check, made only when both coordinates are given:
    the rejection, if any.  [distanceM] is the haversine function of the
    server, whose trigonometry is not modelled. *)
Definition geofence_check (cfg : Config) (distanceM : Q -> Q -> Q -> Q -> Q)
           (req : ClaimRequest) (loc : Location) : option ClaimResponse :=
  match req_lat req, req_lng req with
  | Some lat, Some lng =>
      let dist := distanceM lat lng (loc_lat loc) (loc_lng loc) in
      if out_of_range cfg loc dist
      then Some (ClaimOutOfRange (js_round dist) (loc_radiusM loc))
      else None
  | _, _ => None
  end.

(** [capsMod] and [hpRisk] *)
Definition event_is (eventName : option string) (name : string) : bool :=
  match eventName with
  | Some e => String.eqb e name
  | None => false
  end.

Definition event_capsMod (eventName : option string) (locationId : string) : Z :=
  if event_is eventName "Brotherhood Patrol" && String.eqb locationId "vault13"
  then 20 else 0.

Definition event_hpRisk (eventName : option string) (locationId : string) : Z :=
  if event_is eventName "Raider Skirmish" && String.eqb locationId "nukaTown"
  then 10 else 0.

Definition loot_item (cfg : Config) (loc : Location) (now : Z) (loot : LootEntry) : Item :=
  {| item_id := loot_id loot;
     item_name := loot_name loot;
     item_type := loot_type loot;
     item_rarity := loot_rarity loot;
     item_stats := loot_stats loot;
     item_source := loc_name loc;
     item_ts := now;
     item_nftMint := maybeMintNftForLoot cfg loot |}.

Definition rarityBonus (loot : option LootEntry) : Z :=
  match loot with
  | None => 0
  | Some l =>
      if String.eqb (loot_rarity l) "legendary" then 60
      else if String.eqb (loot_rarity l) "rare" then 24 else 0
  end.

(** Everything the handler does to the player between the geofence check
    and the settlement call: commit of the claim time, loot, encounter,
    event risk, caps and experience. *)
Record Resolution : Type := mkResolution {
  res_player : Player;
  res_lootItem : option Item;
  res_encounter : option string;
  res_capsEarned : Z;
  res_leveledUp : bool
}.

Definition resolve_rewards (cfg : Config) (fuel : nat) (loc : Location)
           (locationId : string) (eventName : option string) (now : Z)
           (rand_loot rand_encounter : Q) (player : Player) : option Resolution :=
  let capsMod := event_capsMod eventName locationId in
  let hpRisk := event_hpRisk eventName locationId in
  let p1 := set_cooldowns_claim now player in
  let loot := rollLoot (loc_lootTable loc) p1 rand_loot in
  let lootItem := option_map (loot_item cfg loc now) loot in
  let p2 :=
    match lootItem with
    | Some it => set_inventory (inventory p1 ++ [it]) p1
    | None => p1
    end in
  let '(p3, encounter) := rollEncounter p2 rand_encounter in
  let p4 := if 0 <? hpRisk then set_hp (Z.max 0 (hp p3 - hpRisk)) p3 else p3 in
  let capsEarned := 12 + rarityBonus loot + capsMod in
  match grantCapsAndXp fuel p4 capsEarned 18 with
  | None => None
  | Some (p5, leveledUp) => Some (mkResolution p5 lootItem encounter capsEarned leveledUp)
  end.

(** The handler.  [net] is the behaviour of the mint call; [None] is a
    run whose leveling loop does not finish within [fuel]. *)
Definition claim_survival (cfg : Config) (distanceM : Q -> Q -> Q -> Q -> Q)
           (fuel : nat) (req : ClaimRequest) (now : Z)
           (rand_loot rand_encounter : Q) (net : MintOutcome)
           (players : gmap string Player)
  : option (gmap string Player * ClaimResponse) :=
  match req_wallet req, req_locationId req with
  | Some w, Some locationId =>
      if missing (req_wallet req) || missing (req_locationId req)
      then Some (players, ClaimBadRequest)
      else
        match locations cfg locationId with
        | None => Some (players, ClaimUnknownLocation)
        | Some loc =>
            let '(players1, player) := ensurePlayer w players in
            let last := cooldowns_claim player in
            if now - last <? COOLDOWN_MS cfg then
              Some (players1, ClaimCooldownActive (COOLDOWN_MS cfg - (now - last)))
            else
              match geofence_check cfg distanceM req loc with
              | Some response => Some (players1, response)
              | None =>
                  match resolve_rewards cfg fuel loc locationId (req_eventName req)
                                        now rand_loot rand_encounter player with
                  | None => None
                  | Some r =>
                      let chain :=
                        if negb (SIMULATE_MINT cfg)
                        then Some (maybeMintCapsOnChain cfg net) else None in
                      let p := res_player r in
                      Some (<[w := p]> players1,
                            ClaimOk (mkClaimBody (loc_name loc) (res_lootItem r)
                                       (res_encounter r) (res_capsEarned r)
                                       (res_leveledUp r) (summary p) chain
                                       (cooldowns_claim p + COOLDOWN_MS cfg)))
                  end
              end
        end
  | _, _ => Some (players, ClaimBadRequest)
  end.

(** *** [GET /events] *)




(** ** The server as a state machine over the player store *)




(** ** Notions used to state the properties *)

(** The player after [k] passes of the leveling loop with threshold [t]. *)
Definition after_levels (k t : Z) (p : Player) : Player :=
  mkPlayer (wallet p) (caps p) (lvl p + k) (xp p - k * t)
           (if 0 <? k then max_hp p + 10 * k else hp p) (max_hp p + 10 * k)
           (lastClaim p) (factionRep p) (inventory p) (gear p) (cooldowns_claim p).

(** Number of passes the loop makes from experience [x] with threshold [t]. *)
Definition passes (x t : Z) : Z := Z.max 0 (x / t).

(** Number of inventory items carrying identifier [id]. *)
Definition count_id (id : string) (inv : list Item) : nat :=
  length (filter (fun it => item_id it = id) inv).

(** Sum of the quantities a recipe requires. *)
Definition required_total (needed : list (string * nat)) : nat :=
  foldr (fun mn acc => (snd mn + acc)%nat) 0%nat needed.

(** Quantity a recipe requires of identifier [id] (0 if it is not listed). *)
Definition required_of (id : string) (needed : list (string * nat)) : nat :=
  foldr (fun mn acc => if decide (fst mn = id) then (snd mn + acc)%nat else acc)
        0%nat needed.

(** The inventory holds enough of every required material. *)
Definition sufficient (needed : list (string * nat)) (inv : list Item) : Prop :=
  Forall (fun mn => (snd mn <= count_id (fst mn) inv)%nat) needed.



(** [it] is the first item of [inv] whose identifier is [itemId]. *)
Definition first_with_id (itemId : string) (inv : list Item) (it : Item) : Prop :=
  exists pre post,
    inv = pre ++ it :: post /\ item_id it = itemId /\
    Forall (fun x => item_id x <> itemId) pre.

(** Everything of a player that equipping does not touch. *)
Definition same_outside_gear_and_health (p p' : Player) : Prop :=
  wallet p' = wallet p /\ caps p' = caps p /\ lvl p' = lvl p /\ xp p' = xp p /\
  lastClaim p' = lastClaim p /\ factionRep p' = factionRep p /\
  inventory p' = inventory p /\ cooldowns_claim p' = cooldowns_claim p.

(** The property name of a gear slot. *)
Definition slot_name (s : Slot) : string :=
  match s with
  | SlotHead => "head"
  | SlotBody => "body"
  | SlotWeapon => "weapon"
  | SlotAccessory => "accessory"
  end.

Definition equippable_types : list string := ["head"; "body"; "weapon"; "accessory"].

(** The statement that a craft consumed exactly what the recipe requires:
    the new inventory is the old one minus, for every identifier, the
    required count of items of that identifier, followed by the crafted
    item, so that its length dropped by the sum of the quantities minus
    one. *)
Definition craft_exact (needed : list (string * nat)) (inv inv' : list Item)
           (crafted : Item) : Prop :=
  exists rest,
    inv' = rest ++ [crafted] /\
    (forall id, (count_id id rest + required_of id needed = count_id id inv)%nat) /\
    (length inv' + required_total needed = length inv + 1)%nat.

(** The index list [idxs] is strictly increasing. *)
Definition ascending (idxs : list nat) : Prop :=
  forall a b ja jb,
    idxs !! a = Some ja -> idxs !! b = Some jb -> (a < b)%nat -> (ja < jb)%nat.

(** Position [j] of [inv] holds an item of identifier [m]. *)
Definition holds_id (m : string) (inv : list Item) (j : nat) : Prop :=
  exists x, inv !! j = Some x /\ item_id x = m.

(** Every index list of the bag is increasing and points, in [pre], at
    items of its key. *)
Definition bag_tracks (bag : gmap string (list nat)) (pre : list Item) : Prop :=
  forall m idxs,
    bag !! m = Some idxs -> ascending idxs /\ forall j, j ∈ idxs -> holds_id m pre j.







(** The radius the proximity check compares against. *)
Definition allowed_radius (cfg : Config) (loc : Location) : Q :=
  if Qeq_bool (loc_radiusM loc) 0 then DEFAULT_RADIUS cfg else loc_radiusM loc.


(** ** Statements the code does not satisfy *)

(** The statement that every successful equip of an item carrying a
    defense stat [d] sets maximum health to [100 + d] and clamps current
    health to it. *)
Definition equip_defense_always_applies : Prop :=
  forall p itemId p' slot it d,
    equipItem p itemId = (p', EquipSuccess slot it) ->
    stat_get "defense" (item_stats it) = Some (SNum d) ->
    max_hp p' = 100 + d /\ hp p' = Z.min (hp p) (100 + d).


(** ** Sample data *)

Definition material (id name source : string) : Item :=
  mkItem id name "material" "common" [("value", SNum 1)] source 0 None.

Definition scrap : Item := material "scrap_metal" "Scrap Metal" "NukaTown".
Definition tape : Item := material "duct_tape" "Duct Tape" "Vault 13".

Definition power_armor : Item :=
  mkItem "t45_power_armor" "T-45 Power Armor" "body" "legendary"
         [("defense", SNum 30); ("carry", SNum 10)] "Vault 13" 0 None.

Definition cloth_cap : Item :=
  mkItem "cloth_cap" "Cloth Cap" "head" "common" [("defense", SNum 0)] "NukaTown" 0 None.

(** A level-3 player (two level-ups from the default) holding [inv]. *)
Definition veteran (inv : list Item) : Player :=
  mkPlayer "vault_dweller" 0 3 0 120 120 0 (mkRep 0 0 0) inv
           (mkGear None None None None) 0.


(** A player whose brotherhood reputation was adjusted down to -1000. *)
Definition outcast : Player :=
  set_factionRep (mkRep (-1000) 0 0) (default_player "outcast").

(** A configuration with the default cooldown and radius and real
    minting, a stand-in distance function that puts every claim on the
    spot, and a store with one player who claimed at time 1700000000000. *)
Definition sample_config : Config := mkConfig 3600000 150 false.

Definition on_the_spot : Q -> Q -> Q -> Q -> Q := fun _ _ _ _ => 0%Q.

Definition sample_request : ClaimRequest :=
  mkClaimRequest (Some "vault_dweller") (Some "vault13") None None None.

Definition recent_claimer : Player :=
  set_cooldowns_claim 1700000000000 (default_player "vault_dweller").

Definition sample_store : gmap string Player :=
  {[ "vault_dweller" := recent_claimer ]}.

(** A stand-in distance function that puts every claim 500 m away, and a
    request that reports coordinates. *)
Definition far_away : Q -> Q -> Q -> Q -> Q := fun _ _ _ _ => 500%Q.

Definition located_request : ClaimRequest :=
  mkClaimRequest (Some "vault_dweller") (Some "vault13") (Some 36%Q) (Some (-115)%Q) None.

(** Decides a chain of [String.eqb] tests on a string that [H] excludes
    from the literals tested. *)
Ltac string_not_among H :=
  repeat match goal with
         | |- context [String.eqb ?a ?b] =>
             destruct (String.eqb_spec a b); [exfalso; apply H; tauto|]
         end.

(** ** The progression ledger *)

Lemma after_levels_zero t p : after_levels 0 t p = p.
Proof.
  destruct p; unfold after_levels; simpl.
  f_equal; lia.
Qed.

Lemma after_levels_step k t p :
  0 <= k -> after_levels k t (level_up t p) = after_levels (k + 1) t p.
Proof.
  intros Hk. destruct p; unfold after_levels, level_up; simpl.
  replace (0 <? k + 1) with true by (symmetry; apply Z.ltb_lt; lia).
  destruct (0 <? k) eqn:E; f_equal; lia.
Qed.

(** With a positive threshold the loop finishes within [passes] steps and
    its result has a closed form. *)
Lemma level_loop_closed fuel :
  forall t p b,
    0 < t ->
    (Z.to_nat (passes (xp p) t) <= fuel)%nat ->
    level_loop fuel t p b
    = Some (after_levels (passes (xp p) t) t p, b || (0 <? passes (xp p) t)).
Proof.
  induction fuel as [|fuel IH]; intros t p b Ht Hfuel; simpl.
  - destruct (t <=? xp p) eqn:E.
    + apply Z.leb_le in E.
      assert (1 <= xp p / t) by (apply Z.div_le_lower_bound; lia).
      unfold passes in Hfuel. lia.
    + apply Z.leb_gt in E.
      assert (Hp : passes (xp p) t = 0).
      { unfold passes.
        destruct (Z_lt_le_dec (xp p) 0) as [Hneg|Hpos].
        - assert (xp p / t < 0) by (apply Z.div_lt_upper_bound; lia). lia.
        - rewrite Z.div_small by lia. lia. }
      rewrite Hp, after_levels_zero. simpl. by rewrite orb_false_r.
  - destruct (t <=? xp p) eqn:E.
    + apply Z.leb_le in E.
      assert (Hdiv : (xp p - t) / t = xp p / t - 1).
      { replace (xp p - t) with (xp p + (-1) * t) by lia.
        rewrite Z.div_add by lia. lia. }
      assert (1 <= xp p / t) by (apply Z.div_le_lower_bound; lia).
      assert (Hp : passes (xp (level_up t p)) t = passes (xp p) t - 1).
      { unfold passes. replace (xp (level_up t p)) with (xp p - t) by (by destruct p).
        rewrite Hdiv. lia. }
      rewrite IH by (try lia; rewrite Hp; unfold passes in *; lia).
      rewrite Hp, after_levels_step by (unfold passes; lia).
      replace (passes (xp p) t - 1 + 1) with (passes (xp p) t) by lia.
      replace (0 <? passes (xp p) t) with true
        by (symmetry; apply Z.ltb_lt; unfold passes; lia).
      by rewrite orb_true_r.
    + apply Z.leb_gt in E.
      assert (Hp : passes (xp p) t = 0).
      { unfold passes.
        destruct (Z_lt_le_dec (xp p) 0) as [Hneg|Hpos].
        - assert (xp p / t < 0) by (apply Z.div_lt_upper_bound; lia). lia.
        - rewrite Z.div_small by lia. lia. }
      rewrite Hp, after_levels_zero. simpl. by rewrite orb_false_r.
Qed.

(** What [grantCapsAndXp] computes for a player of level at least 1. *)
Lemma grant_closed fuel p capsEarned xpEarned :
  1 <= lvl p ->
  (Z.to_nat (passes (xp p + xpEarned) (lvl p * 100)) <= fuel)%nat ->
  grantCapsAndXp fuel p capsEarned xpEarned
  = Some (after_levels (passes (xp p + xpEarned) (lvl p * 100)) (lvl p * 100)
            (set_xp (xp p + xpEarned) (set_caps (caps p + capsEarned) p)),
          0 <? passes (xp p + xpEarned) (lvl p * 100)).
Proof.
  intros Hl Hfuel. unfold grantCapsAndXp.
  rewrite level_loop_closed; simpl; try lia; try done.
Qed.

(** More fuel does not change a result. *)
Lemma level_loop_fuel_mono fuel :
  forall extra t p b r,
    level_loop fuel t p b = Some r -> level_loop (fuel + extra) t p b = Some r.
Proof.
  induction fuel as [|fuel IH]; intros extra t p b r; simpl.
  - destruct (t <=? xp p) eqn:E; [done|].
    intros H. destruct extra; simpl; by rewrite E.
  - destruct (t <=? xp p) eqn:E; [apply IH | done].
Qed.

(** With a threshold that is not positive the loop, once entered, is
    never left: no amount of fuel yields a result. *)
Lemma level_loop_diverges fuel :
  forall t p b, t <= 0 -> t <= xp p -> level_loop fuel t p b = None.
Proof.
  induction fuel as [|fuel IH]; intros t p b Ht Hx; simpl;
    destruct (Z.leb_spec t (xp p)); try lia; [done|].
  apply IH; [done|]. destruct p; simpl in *. lia.
Qed.

(** The loop stops at once below the threshold. *)
Lemma level_loop_stop fuel t p b :
  xp p < t -> level_loop fuel t p b = Some (p, b).
Proof.
  intros H. destruct fuel; cbn [level_loop];
    apply Z.leb_gt in H; by rewrite H.
Qed.

Lemma spec_level_loop_stop fuel p b :
  xp p < lvl p * 100 -> spec_level_loop fuel p b = Some (p, b).
Proof.
  intros H. destruct fuel; cbn [spec_level_loop];
    apply Z.leb_gt in H; by rewrite H.
Qed.

(** When at most one level is crossed, the loop of the code and the loop
    of the specification coincide; this covers every grant the claim
    handler makes (18 experience to a player below its threshold). *)
Lemma grant_single_pass_agrees fuel p capsEarned xpEarned :
  1 <= lvl p ->
  xp p + xpEarned < 2 * (lvl p * 100) ->
  (1 <= fuel)%nat ->
  grantCapsAndXp fuel p capsEarned xpEarned = spec_grant fuel p capsEarned xpEarned.
Proof.
  intros Hl Hx Hf. destruct fuel as [|fuel]; [lia|].
  unfold grantCapsAndXp, spec_grant. cbn [level_loop spec_level_loop].
  cbn [lvl xp set_xp set_caps].
  destruct (lvl p * 100 <=? xp p + xpEarned) eqn:E; [|reflexivity].
  apply Z.leb_le in E.
  rewrite level_loop_stop, spec_level_loop_stop; [reflexivity | |].
  - destruct p; cbn in *. lia.
  - destruct p; cbn in *. lia.
Qed.

(** Pass counts at the two grants of interest. *)
Lemma passes_exact t : 0 < t -> passes t t = 1.
Proof. intros Ht. unfold passes. rewrite Z.div_same by lia. reflexivity. Qed.

Lemma passes_two_and_a_half t : 0 < t -> t mod 2 = 0 -> passes (5 * t / 2) t = 2.
Proof.
  intros Ht Heven. unfold passes.
  assert (Hh : exists h, t = 2 * h).
  { exists (t / 2). rewrite (Z.div_mod t 2) at 1 by lia. rewrite Heven. apply Z.add_0_r. }
  destruct Hh as [h ->].
  replace (5 * (2 * h) / 2) with (5 * h)
    by (replace (5 * (2 * h)) with (5 * h * 2) by lia; symmetry; apply Z.div_mul; lia).
  replace (5 * h / (2 * h)) with 2; [reflexivity|].
  apply (Z.div_unique (5 * h) (2 * h) 2 h); lia.
Qed.

(** C4.  For a player at level L >= 1 with experience 0, a grant of exactly
    L * 100 experience makes exactly one level-up, leaves experience 0,
    raises maximum health by 10 and sets current health to the new maximum;
    a grant of 2.5 * (L * 100) experience makes exactly two level-ups. *)
Theorem grant_threshold_multiples fuel p capsEarned :
  1 <= lvl p ->
  xp p = 0 ->
  (2 <= fuel)%nat ->
  (exists p1,
      grantCapsAndXp fuel p capsEarned (lvl p * 100) = Some (p1, true) /\
      lvl p1 = lvl p + 1 /\ xp p1 = 0 /\
      max_hp p1 = max_hp p + 10 /\ hp p1 = max_hp p1) /\
  (exists p2,
      grantCapsAndXp fuel p capsEarned (5 * (lvl p * 100) / 2) = Some (p2, true) /\
      lvl p2 = lvl p + 2 /\ max_hp p2 = max_hp p + 20 /\ hp p2 = max_hp p2).
Proof.
  intros Hl Hx Hf.
  assert (Ht : 0 < lvl p * 100) by lia.
  assert (H1 : passes (xp p + lvl p * 100) (lvl p * 100) = 1).
  { rewrite Hx, Z.add_0_l. by apply passes_exact. }
  assert (H2 : passes (xp p + 5 * (lvl p * 100) / 2) (lvl p * 100) = 2).
  { rewrite Hx, Z.add_0_l. apply passes_two_and_a_half; [done|].
    replace (lvl p * 100) with (lvl p * 50 * 2) by lia. apply Z.mod_mul. lia. }
  split.
  - rewrite grant_closed by (rewrite ?H1; simpl; lia).
    rewrite H1. eexists. split; [reflexivity|].
    cbn [lvl xp hp max_hp after_levels set_xp set_caps].
    change (0 <? 1) with true. cbv iota.
    rewrite Hx. repeat split; lia.
  - rewrite grant_closed by (rewrite ?H2; simpl; lia).
    rewrite H2. eexists. split; [reflexivity|].
    cbn [lvl xp hp max_hp after_levels set_xp set_caps].
    change (0 <? 2) with true. cbv iota.
    repeat split; lia.
Qed.

Lemma grant_threshold_multiples_witness :
  (exists p1,
      grantCapsAndXp 2 (default_player "vault_dweller") 12 100 = Some (p1, true) /\
      lvl p1 = 2 /\ xp p1 = 0 /\ max_hp p1 = 110 /\ hp p1 = max_hp p1) /\
  (exists p2,
      grantCapsAndXp 2 (default_player "vault_dweller") 12 250 = Some (p2, true) /\
      lvl p2 = 3 /\ max_hp p2 = 120 /\ hp p2 = max_hp p2).
Proof.
  apply (grant_threshold_multiples 2 (default_player "vault_dweller") 12);
    [simpl; lia | reflexivity | lia].
Defined.


(** ** Equipment *)

Lemma find_id_none itemId (inv : list Item) :
  List.find (fun i => String.eqb (item_id i) itemId) inv = None <->
  Forall (fun x => item_id x <> itemId) inv.
Proof.
  induction inv as [|x inv IH]; simpl.
  - split; [constructor | done].
  - destruct (String.eqb_spec (item_id x) itemId) as [Heq|Hne].
    + split; [done|]. intros H. by inversion H.
    + rewrite IH. split.
      * by constructor.
      * intros H. by inversion H.
Qed.

Lemma find_id_first itemId (inv : list Item) it :
  List.find (fun i => String.eqb (item_id i) itemId) inv = Some it <->
  first_with_id itemId inv it.
Proof.
  induction inv as [|x inv IH]; simpl.
  - split; [done|]. intros (pre & post & H & _). by destruct pre.
  - destruct (String.eqb_spec (item_id x) itemId) as [Heq|Hne].
    + split.
      * intros [= ->]. exists [], inv. by repeat split.
      * intros (pre & post & H & Hid & Hpre).
        destruct pre as [|y pre]; simpl in H.
        -- by inversion H.
        -- inversion H; subst y. inversion Hpre; subst. contradiction.
    + rewrite IH. split.
      * intros (pre & post & -> & Hid & Hpre).
        exists (x :: pre), post. split; [done|]. split; [done|]. by constructor.
      * intros (pre & post & H & Hid & Hpre).
        destruct pre as [|y pre]; simpl in H.
        -- inversion H; subst. contradiction.
        -- inversion H; subst. exists pre, post.
           split; [done|]. split; [done|]. by inversion Hpre.
Qed.

Lemma slot_of_type_some ty :
  ty ∈ equippable_types -> exists slot, slot_of_type ty = Some slot /\ slot_name slot = ty.
Proof.
  unfold equippable_types. rewrite !elem_of_cons, elem_of_nil.
  intros [->|[->|[->|[->|[]]]]]; eexists; (split; [reflexivity|reflexivity]).
Qed.

Lemma slot_of_type_none ty :
  ty ∉ equippable_types -> slot_of_type ty = None.
Proof.
  unfold equippable_types, slot_of_type. rewrite !elem_of_cons, elem_of_nil.
  intros H.
  string_not_among H.
  reflexivity.
Qed.

Lemma gear_get_set_eq slot it g : gear_get slot (gear_set slot it g) = Some it.
Proof. by destruct slot. Qed.

Lemma gear_get_set_ne s slot it g :
  s <> slot -> gear_get s (gear_set slot it g) = gear_get s g.
Proof. by destruct s, slot. Qed.

(** The shape of every successful equip. *)
Lemma equip_success_inv p itemId p' slot it :
  equipItem p itemId = (p', EquipSuccess slot it) ->
  List.find (fun i => String.eqb (item_id i) itemId) (inventory p) = Some it /\
  slot_of_type (item_type it) = Some slot /\
  p' = (let p1 := set_gear (gear_set slot it (gear p)) p in
        let defense := stat_get "defense" (item_stats it) in
        if truthy defense then
          let q := set_max_hp (100 + num_or_zero defense) p1 in
          set_hp (Z.min (hp q) (max_hp q)) q
        else p1).
Proof.
  unfold equipItem.
  destruct (List.find _ (inventory p)) as [it0|] eqn:Hfind; [|done].
  destruct (slot_of_type (item_type it0)) as [slot0|] eqn:Hslot; [|done].
  intros [= <- <- <-]. done.
Qed.

(** C8.  Equipping never creates or destroys inventory items.  An
    identifier absent from the inventory gives "Item not found" and the
    player is unchanged; an item whose type is not head, body, weapon or
    accessory gives "Item is not equippable" and the player is unchanged;
    otherwise the equip succeeds, the inventory is the same list, the slot
    named by the item's type holds the item, every other slot is as before,
    and a previous occupant that was in the inventory is still in it. *)
Theorem equip_preserves_inventory p itemId :
  inventory (equipItem p itemId).1 = inventory p /\
  (Forall (fun x => item_id x <> itemId) (inventory p) ->
   equipItem p itemId = (p, EquipError "Item not found")) /\
  (forall it,
      first_with_id itemId (inventory p) it ->
      item_type it ∉ equippable_types ->
      equipItem p itemId = (p, EquipError "Item is not equippable")) /\
  (forall it,
      first_with_id itemId (inventory p) it ->
      item_type it ∈ equippable_types ->
      exists slot p',
        equipItem p itemId = (p', EquipSuccess slot it) /\
        slot_name slot = item_type it /\
        same_outside_gear_and_health p p' /\
        length (inventory p') = length (inventory p) /\
        gear_get slot (gear p') = Some it /\
        (forall s, s <> slot -> gear_get s (gear p') = gear_get s (gear p)) /\
        (forall prev,
            gear_get slot (gear p) = Some prev ->
            prev ∈ inventory p -> prev ∈ inventory p')).
Proof.
  split; [|split; [|split]].
  - unfold equipItem.
    destruct (List.find _ (inventory p)) as [it|]; [|done].
    destruct (slot_of_type (item_type it)); [|done].
    simpl. by destruct (truthy _).
  - intros H. apply find_id_none in H. unfold equipItem. by rewrite H.
  - intros it Hfirst Hty. apply find_id_first in Hfirst.
    unfold equipItem. by rewrite Hfirst, (slot_of_type_none _ Hty).
  - intros it Hfirst Hty. apply find_id_first in Hfirst.
    destruct (slot_of_type_some _ Hty) as (slot & Hslot & Hname).
    unfold equipItem. rewrite Hfirst, Hslot.
    eexists slot, _. split; [reflexivity|].
    split; [done|].
    destruct (truthy _); simpl;
      (split; [by repeat split|]);
      (split; [done|]);
      (split; [apply gear_get_set_eq|]);
      (split; [intros s Hs; by apply gear_get_set_ne | done]).
Qed.

Lemma equip_preserves_inventory_witness :
  exists slot p',
    equipItem (veteran [scrap; power_armor]) "t45_power_armor"
    = (p', EquipSuccess slot power_armor) /\
    slot_name slot = "body" /\
    inventory p' = [scrap; power_armor] /\
    gear_get slot (gear p') = Some power_armor.
Proof.
  destruct (proj2 (proj2 (proj2
              (equip_preserves_inventory (veteran [scrap; power_armor])
                                         "t45_power_armor"))) power_armor)
    as (slot & p' & Hrun & Hname & Hsame & _ & Hslot & _).
  - exists [scrap], []. split; [reflexivity|]. split; [reflexivity|].
    repeat constructor. discriminate.
  - unfold equippable_types. rewrite !elem_of_cons. right. left. reflexivity.
  - exists slot, p'. split; [exact Hrun|]. split; [exact Hname|].
    split; [apply Hsame | exact Hslot].
Defined.

(** C9, as stated, fails: a level-3 player (maximum health 120) equipping
    a head item whose defense stat is 0 keeps maximum health 120, not
    100 + 0. *)
Lemma equip_defense_zero_is_skipped : ~ equip_defense_always_applies.
Proof.
  intros H.
  destruct (H (veteran [cloth_cap]) "cloth_cap"
              (set_gear (mkGear (Some cloth_cap) None None None) (veteran [cloth_cap]))
              SlotHead cloth_cap 0) as [Hmax _];
    [vm_compute; reflexivity | reflexivity |].
  vm_compute in Hmax. discriminate.
Qed.

(** C9, amended.  A successful equip of an item whose defense stat is a
    non-zero number [d] sets maximum health to exactly [100 + d], whatever
    the player's level and other gear, and clamps current health to it; an
    item with no defense stat, or with defense 0, leaves maximum and
    current health unchanged. *)
Theorem equip_defense_effect p itemId p' slot it :
  equipItem p itemId = (p', EquipSuccess slot it) ->
  (forall d,
      stat_get "defense" (item_stats it) = Some (SNum d) -> d <> 0 ->
      max_hp p' = 100 + d /\ hp p' = Z.min (hp p) (100 + d)) /\
  (stat_get "defense" (item_stats it) = None \/
   stat_get "defense" (item_stats it) = Some (SNum 0) ->
   max_hp p' = max_hp p /\ hp p' = hp p).
Proof.
  intros H. apply equip_success_inv in H as (_ & _ & ->).
  split.
  - intros d Hd Hnz. rewrite Hd. simpl.
    destruct (Z.eqb_spec d 0); [done|]. simpl. done.
  - intros [Hd|Hd]; rewrite Hd; simpl; done.
Qed.

Lemma equip_defense_effect_witness :
  max_hp (equipItem (veteran [power_armor]) "t45_power_armor").1 = 100 + 30 /\
  hp (equipItem (veteran [power_armor]) "t45_power_armor").1 = Z.min 120 (100 + 30).
Proof.
  refine (proj1 (equip_defense_effect (veteran [power_armor]) "t45_power_armor"
                   (equipItem (veteran [power_armor]) "t45_power_armor").1
                   SlotBody power_armor _) 30 _ _).
  - vm_compute; reflexivity.
  - reflexivity.
  - discriminate.
Defined.

(** ** Crafting *)

Lemma have_bag_push bag id idx m :
  have (bag_push bag id idx) m
  = (have bag m + (if decide (id = m) then 1 else 0))%nat.
Proof.
  unfold have, bag_push. destruct (decide (id = m)) as [->|Hne].
  - rewrite lookup_insert_eq. simpl. by rewrite length_app.
  - rewrite lookup_insert_ne by done. lia.
Qed.

(** The bag built from the inventory counts the items of each identifier. *)
Lemma have_build_bag (inv : list Item) :
  forall idx bag m,
    have (build_bag idx inv bag) m = (have bag m + count_id m inv)%nat.
Proof.
  induction inv as [|it inv IH]; intros idx bag m; simpl.
  - unfold count_id. simpl. lia.
  - rewrite IH, have_bag_push. unfold count_id.
    rewrite filter_cons. destruct (decide (item_id it = m)); simpl; lia.
Qed.

Lemma have_inventory_bag (inv : list Item) m :
  have (build_bag 0 inv ∅) m = count_id m inv.
Proof.
  rewrite have_build_bag. unfold have. by rewrite lookup_empty.
Qed.

Lemma check_materials_sufficient needed bag inv :
  (forall m, have bag m = count_id m inv) ->
  sufficient needed inv -> check_materials needed bag = None.
Proof.
  intros Hbag. induction needed as [|[m n] needed IH]; intros Hs; simpl; [done|].
  inversion Hs as [|? ? Hhd Htl]; subst. simpl in Hhd.
  rewrite Hbag. destruct (Nat.ltb_spec (count_id m inv) n); [lia|]. by apply IH.
Qed.

(** The check reports the first material, in key order, found short. *)
Lemma check_materials_short needed bag inv :
  (forall m, have bag m = count_id m inv) ->
  ~ sufficient needed inv ->
  exists pre matId n post,
    needed = pre ++ (matId, n) :: post /\
    sufficient pre inv /\
    (count_id matId inv < n)%nat /\
    check_materials needed bag
    = Some ("Missing " +:+ matId +:+ " x" +:+ pretty (n - count_id matId inv)%nat).
Proof.
  intros Hbag. induction needed as [|[m n] needed IH]; intros Hs.
  - exfalso. apply Hs. constructor.
  - destruct (Nat.ltb_spec (count_id m inv) n) as [Hlt|Hge].
    + exists [], m, n, needed. split; [done|]. split; [constructor|]. split; [done|].
      simpl. rewrite Hbag.
      destruct (Nat.ltb_spec (count_id m inv) n); [done|lia].
    + destruct IH as (pre & matId & k & post & -> & Hpre & Hlt & Hmsg).
      { intros Htl. apply Hs. by constructor. }
      exists ((m, n) :: pre), matId, k, post.
      split; [done|]. split; [by constructor|]. split; [done|].
      simpl. rewrite Hbag.
      destruct (Nat.ltb_spec (count_id m inv) n); [lia|done].
Qed.

(** C3.  If the inventory is short of some required material, [craftItem]
    returns the error "Missing <id> x<shortfall>" for the first material,
    in the recipe's key order, of which the inventory holds too few, and
    the player it leaves is the player it was given. *)
Theorem craft_shortfall_aborts p recipeId recipe now_id now_ts :
  recipe_lookup recipeId recipes = Some recipe ->
  ~ sufficient (recipe_requires recipe) (inventory p) ->
  exists pre matId n post,
    recipe_requires recipe = pre ++ (matId, n) :: post /\
    sufficient pre (inventory p) /\
    (count_id matId (inventory p) < n)%nat /\
    craftItem p recipeId now_id now_ts
    = (p, CraftError ("Missing " +:+ matId +:+ " x"
                        +:+ pretty (n - count_id matId (inventory p))%nat)).
Proof.
  intros Hrecipe Hshort.
  destruct (check_materials_short (recipe_requires recipe)
              (build_bag 0 (inventory p) ∅) (inventory p)
              (have_inventory_bag (inventory p)) Hshort)
    as (pre & matId & n & post & Hsplit & Hpre & Hlt & Hmsg).
  exists pre, matId, n, post. repeat (split; [done|]).
  unfold craftItem. by rewrite Hrecipe, Hmsg.
Qed.

Lemma craft_shortfall_aborts_witness :
  exists pre matId n post,
    [("scrap_metal", 3%nat); ("duct_tape", 1%nat)] = pre ++ (matId, n) :: post /\
    sufficient pre [scrap; tape] /\
    (count_id matId [scrap; tape] < n)%nat /\
    craftItem (veteran [scrap; tape]) "scav_helmet" 1700 1701
    = (veteran [scrap; tape],
       CraftError ("Missing " +:+ matId +:+ " x"
                     +:+ pretty (n - count_id matId [scrap; tape])%nat)).
Proof.
  apply (craft_shortfall_aborts (veteran [scrap; tape]) "scav_helmet"
           (mkRecipe "Scavenger Helmet" "head" "uncommon"
                     [("scrap_metal", 3%nat); ("duct_tape", 1%nat)]
                     [("defense", SNum 5)]) 1700 1701).
  - reflexivity.
  - intros H. apply Forall_cons in H as [H _]. vm_compute in H. lia.
Defined.

(** After a successful check the consuming loops run to their end: the
    [TypeError] branch is never taken. *)
Lemma consume_material_done n :
  forall m bag inv,
    n = 0%nat \/ is_Some (bag !! m) ->
    exists bag' inv',
      consume_material n m bag inv = ConsumeDone bag' inv' /\
      forall k, is_Some (bag !! k) -> is_Some (bag' !! k).
Proof.
  induction n as [|n IH]; intros m bag inv H; simpl.
  - by exists bag, inv.
  - destruct H as [H|[idxs Hidxs]]; [done|]. rewrite Hidxs.
    destruct (IH m (<[m := removelast idxs]> bag) (splice1 (last idxs) inv))
      as (bag' & inv' & Hrun & Hdom).
    { right. rewrite lookup_insert_eq. by eexists. }
    exists bag', inv'. split; [done|].
    intros k Hk. apply Hdom.
    destruct (decide (m = k)) as [->|Hne].
    + rewrite lookup_insert_eq. by eexists.
    + by rewrite lookup_insert_ne.
Qed.

Lemma consume_done needed :
  forall bag inv,
    Forall (fun mn => snd mn = 0%nat \/ is_Some (bag !! fst mn)) needed ->
    exists bag' inv', consume needed bag inv = ConsumeDone bag' inv'.
Proof.
  induction needed as [|[m n] needed IH]; intros bag inv H; simpl.
  - by exists bag, inv.
  - inversion H as [|? ? Hhd Htl]; subst. simpl in Hhd.
    destruct (consume_material_done n m bag inv Hhd) as (bag' & inv' & -> & Hdom).
    apply IH. eapply Forall_impl; [exact Htl|].
    intros [m' n'] [H0|Hsome]; [by left | right; by apply Hdom].
Qed.

Lemma check_materials_none needed bag :
  check_materials needed bag = None ->
  Forall (fun mn => snd mn = 0%nat \/ is_Some (bag !! fst mn)) needed.
Proof.
  induction needed as [|[m n] needed IH]; simpl; [constructor|].
  destruct (Nat.ltb_spec (have bag m) n) as [|Hge]; [done|].
  intros H. constructor; [|by apply IH].
  simpl. unfold have in Hge. destruct (bag !! m); [right; by eexists|].
  simpl in Hge. left. lia.
Qed.


(** What the consuming loops guarantee whatever the order of the
    inventory: each [splice] takes out at most one item and puts none in. *)
Lemma splice1_bounds idx (inv : list Item) :
  splice1 idx inv `sublist_of` inv /\
  (length inv <= S (length (splice1 idx inv)))%nat.
Proof.
  assert (H : forall i, (length inv <= S (length (delete i inv)))%nat).
  { intros i. revert i. induction inv as [|x inv IH]; intros [|i]; simpl; try lia.
    specialize (IH i). lia. }
  destruct idx as [i|]; simpl; (split; [apply sublist_delete | apply H]).
Qed.

Lemma consume_material_bounds n :
  forall m bag inv bag' inv',
    consume_material n m bag inv = ConsumeDone bag' inv' ->
    inv' `sublist_of` inv /\ (length inv <= length inv' + n)%nat.
Proof.
  induction n as [|n IH]; intros m bag inv bag' inv'; simpl.
  - intros [= _ <-]. split; [done | lia].
  - destruct (bag !! m) as [idxs|]; [|done].
    intros H. apply IH in H as [Hsub Hlen].
    destruct (splice1_bounds (last idxs) inv) as [Hsub1 Hlen1].
    split; [by etrans | lia].
Qed.

Lemma consume_bounds needed :
  forall bag inv bag' inv',
    consume needed bag inv = ConsumeDone bag' inv' ->
    inv' `sublist_of` inv /\ (length inv <= length inv' + required_total needed)%nat.
Proof.
  induction needed as [|[m n] needed IH]; intros bag inv bag' inv'; simpl.
  - intros [= _ <-]. split; [done | lia].
  - destruct (consume_material n m bag inv) as [bag1 inv1|] eqn:E; [|done].
    intros H. apply IH in H as [Hsub Hlen].
    apply consume_material_bounds in E as [Hsub1 Hlen1].
    split; [by etrans | lia].
Qed.

(** X8.  With sufficient materials a craft succeeds and appends exactly one
    item, built from the recipe, to what is left of the inventory; what
    is left keeps the order of the inventory and misses at most as many
    items as the recipe requires. *)
Lemma craft_success_shape p recipeId recipe now_id now_ts :
  recipe_lookup recipeId recipes = Some recipe ->
  sufficient (recipe_requires recipe) (inventory p) ->
  exists rest,
    craftItem p recipeId now_id now_ts
    = (set_inventory (rest ++ [crafted_item recipeId recipe now_id now_ts]) p,
       CraftSuccess (crafted_item recipeId recipe now_id now_ts)) /\
    rest `sublist_of` inventory p /\
    (length (inventory p) <= length rest + required_total (recipe_requires recipe))%nat.
Proof.
  intros Hrecipe Hs. unfold craftItem. rewrite Hrecipe.
  rewrite (check_materials_sufficient _ _ (inventory p)
             (have_inventory_bag (inventory p)) Hs).
  destruct (consume_done (recipe_requires recipe) (build_bag 0 (inventory p) ∅)
              (inventory p)) as (bag' & inv' & Hrun).
  { apply check_materials_none.
    by apply (check_materials_sufficient _ _ (inventory p)
                (have_inventory_bag (inventory p))). }
  rewrite Hrun. exists inv'. split; [done|].
  by apply consume_bounds in Hrun.
Qed.

Lemma count_id_cons k x (inv : list Item) :
  count_id k (x :: inv)
  = ((if decide (item_id x = k) then 1 else 0) + count_id k inv)%nat.
Proof.
  unfold count_id. rewrite filter_cons. by destruct (decide (item_id x = k)).
Qed.

Lemma count_delete (inv : list Item) :
  forall j x k,
    inv !! j = Some x ->
    (count_id k (delete j inv) + (if decide (item_id x = k) then 1 else 0)
     = count_id k inv)%nat.
Proof.
  induction inv as [|y inv IH]; intros [|j] x k H; simpl in *; try done.
  - injection H as ->. rewrite count_id_cons. lia.
  - rewrite !count_id_cons, <- (IH j x k H). lia.
Qed.

Lemma ascending_app_inv front j :
  ascending (front ++ [j]) ->
  ascending front /\ forall i, i ∈ front -> (i < j)%nat.
Proof.
  intros H. split.
  - intros a b ja jb Ha Hb Hab.
    apply (H a b); [by apply lookup_app_l_Some | by apply lookup_app_l_Some | done].
  - intros i Hi. apply list_elem_of_lookup in Hi as [a Ha].
    apply (H a (length front)).
    + by apply lookup_app_l_Some.
    + rewrite lookup_app_r by lia. by rewrite Nat.sub_diag.
    + by eapply lookup_lt_Some.
Qed.

Lemma ascending_snoc front j :
  ascending front -> (forall i, i ∈ front -> (i < j)%nat) -> ascending (front ++ [j]).
Proof.
  intros Hasc Hlt a b ja jb Ha Hb Hab.
  assert (Hb' : (b < length (front ++ [j]))%nat) by (by eapply lookup_lt_Some).
  rewrite length_app in Hb'. simpl in Hb'.
  rewrite lookup_app_l in Ha by lia.
  destruct (decide (b < length front)%nat) as [Hin|Hout].
  - rewrite lookup_app_l in Hb by done. by apply (Hasc a b).
  - rewrite lookup_app_r in Hb by lia.
    replace (b - length front)%nat with 0%nat in Hb by lia.
    injection Hb as <-. apply Hlt. apply list_elem_of_lookup. by exists a.
Qed.

(** While the recorded indices of a material point at items of that
    material, the inner loop takes out exactly [n] of them, the last
    ones, and leaves every position before them as it was. *)
Lemma consume_material_exact n :
  forall m bag (inv : list Item) idxs,
    default [] (bag !! m) = idxs ->
    ascending idxs ->
    (n <= length idxs)%nat ->
    (forall j, j ∈ drop (length idxs - n) idxs -> holds_id m inv j) ->
    exists bag' inv',
      consume_material n m bag inv = ConsumeDone bag' inv' /\
      (forall k, k <> m -> bag' !! k = bag !! k) /\
      (forall k, (count_id k inv' + (if decide (m = k) then n else 0)
                  = count_id k inv)%nat) /\
      (length inv' + n = length inv)%nat /\
      (forall i, (forall j, j ∈ drop (length idxs - n) idxs -> (i < j)%nat) ->
                 inv' !! i = inv !! i).
Proof.
  induction n as [|n IH]; intros m bag inv idxs Hbag Hasc Hn Hvalid.
  - exists bag, inv. simpl. split; [done|]. split; [done|].
    split; [intros k; destruct (decide (m = k)); lia|]. split; [lia | done].
  - destruct (bag !! m) as [idxs0|] eqn:Hlook; simpl in Hbag; subst idxs;
      [|simpl in Hn; lia].
    rename idxs0 into idxs.
    destruct (last idxs) as [j|] eqn:Hlast;
      [|apply last_None in Hlast; subst; simpl in Hn; lia].
    apply last_Some in Hlast as [front ->].
    rewrite length_app in *. cbn [length] in *.
    apply ascending_app_inv in Hasc as [Hfront Hbelow].
    assert (Hdrop : drop (length front + 1 - S n) (front ++ [j])
                    = drop (length front - n) front ++ [j]).
    { replace (length front + 1 - S n)%nat with (length front - n)%nat by lia.
      rewrite drop_app_le by lia. done. }
    rewrite Hdrop in Hvalid.
    assert (Hj : holds_id m inv j).
    { apply Hvalid. apply elem_of_app. right. by apply list_elem_of_singleton. }
    destruct Hj as (x & Hx & Hid).
    destruct (IH m (<[m := front]> bag) (delete j inv) front) as
      (bag' & inv' & Hrun & Hother & Hcount & Hlen & Hframe).
    + by rewrite lookup_insert_eq.
    + done.
    + lia.
    + intros i Hi. assert (Hi' : i ∈ front) by (by eapply subseteq_drop).
      destruct (Hvalid i) as (y & Hy & Hidy); [apply elem_of_app; by left|].
      exists y. split; [|done]. rewrite list_lookup_delete_lt; [done|]. by apply Hbelow.
    + exists bag', inv'. split.
      { simpl. rewrite Hlook, last_snoc, removelast_last. exact Hrun. }
      split.
      { intros k Hk. rewrite Hother by done. by rewrite lookup_insert_ne. }
      split.
      { intros k. specialize (Hcount k). pose proof (count_delete inv j x k Hx) as Hd.
        rewrite Hid in Hd. destruct (decide (m = k)); lia. }
      split.
      { rewrite length_delete in Hlen by (by eexists).
        assert (0 < length inv)%nat by (apply lookup_lt_Some in Hx; lia). lia. }
      intros i Hi. rewrite Hdrop in Hi.
      rewrite Hframe.
      * apply list_lookup_delete_lt. apply Hi. apply elem_of_app. right.
        by apply list_elem_of_singleton.
      * intros j' Hj'. apply Hi. apply elem_of_app. by left.
Qed.

Lemma holds_id_app m (pre inv : list Item) j :
  holds_id m pre j -> holds_id m (pre ++ inv) j.
Proof. intros (x & Hx & Hid). exists x. split; [by apply lookup_app_l_Some | done]. Qed.

(** The bag built from the inventory records, for every identifier, the
    increasing list of the positions that hold it. *)
Lemma bag_tracks_push bag pre it :
  bag_tracks bag pre ->
  bag_tracks (bag_push bag (item_id it) (length pre)) (pre ++ [it]).
Proof.
  intros H m idxs. unfold bag_push.
  destruct (decide (item_id it = m)) as [<-|Hne].
  - rewrite lookup_insert_eq. intros [= <-].
    assert (Hold : ascending (default [] (bag !! item_id it)) /\
                   forall j, j ∈ default [] (bag !! item_id it) ->
                             holds_id (item_id it) pre j).
    { destruct (bag !! item_id it) as [old|] eqn:E; simpl.
      - by apply H.
      - split; [by intros a b ja jb Ha | by intros j Hj%elem_of_nil]. }
    destruct Hold as [Hasc Hvalid]. split.
    + apply ascending_snoc; [done|]. intros i Hi.
      destruct (Hvalid i Hi) as (x & Hx & _). by eapply lookup_lt_Some.
    + intros j [Hj|Hj%list_elem_of_singleton]%elem_of_app.
      * by apply holds_id_app, Hvalid.
      * subst j. exists it. split; [|done].
        rewrite lookup_app_r by lia. by rewrite Nat.sub_diag.
  - rewrite lookup_insert_ne by done. intros Hm.
    destruct (H m idxs Hm) as [Hasc Hvalid]. split; [done|].
    intros j Hj. by apply holds_id_app, Hvalid.
Qed.

Lemma build_bag_tracks (inv : list Item) :
  forall pre bag,
    bag_tracks bag pre -> bag_tracks (build_bag (length pre) inv bag) (pre ++ inv).
Proof.
  induction inv as [|it inv IH]; intros pre bag H; simpl.
  - by rewrite app_nil_r.
  - replace (S (length pre)) with (length (pre ++ [it]))
      by (rewrite length_app; simpl; lia).
    replace (pre ++ it :: inv) with ((pre ++ [it]) ++ inv) by (by rewrite <- app_assoc).
    apply IH. by apply bag_tracks_push.
Qed.

Lemma inventory_bag_tracks (inv : list Item) : bag_tracks (build_bag 0 inv ∅) inv.
Proof.
  apply (build_bag_tracks inv [] ∅). intros m idxs H. by rewrite lookup_empty in H.
Qed.

Lemma inventory_bag_indices (inv : list Item) m :
  ascending (default [] (build_bag 0 inv ∅ !! m)) /\
  (forall j, j ∈ default [] (build_bag 0 inv ∅ !! m) -> holds_id m inv j) /\
  length (default [] (build_bag 0 inv ∅ !! m)) = count_id m inv.
Proof.
  split; [|split].
  - destruct (build_bag 0 inv ∅ !! m) as [idxs|] eqn:E; simpl.
    + by apply (inventory_bag_tracks inv m idxs).
    + by intros a b ja jb Ha.
  - destruct (build_bag 0 inv ∅ !! m) as [idxs|] eqn:E; simpl.
    + by apply (inventory_bag_tracks inv m idxs).
    + by intros j Hj%elem_of_nil.
  - apply (have_inventory_bag inv m).
Qed.

(** X9.  A two-material craft is exact when every item of the second material
    lies before every item of the first: the indices recorded for the
    second material are then still right after the first was spliced
    out. *)
Lemma craft_exact_when_later_material_first p recipeId recipe m1 n1 m2 n2
        now_id now_ts :
  recipe_lookup recipeId recipes = Some recipe ->
  recipe_requires recipe = [(m1, n1); (m2, n2)] ->
  m1 <> m2 ->
  sufficient (recipe_requires recipe) (inventory p) ->
  (forall i j, holds_id m2 (inventory p) i -> holds_id m1 (inventory p) j -> (i < j)%nat) ->
  exists inv',
    craftItem p recipeId now_id now_ts
    = (set_inventory inv' p, CraftSuccess (crafted_item recipeId recipe now_id now_ts)) /\
    craft_exact (recipe_requires recipe) (inventory p) inv'
                (crafted_item recipeId recipe now_id now_ts).
Proof.
  intros Hrecipe Hneeded Hne Hs Horder.
  unfold craftItem. rewrite Hrecipe.
  rewrite (check_materials_sufficient _ _ (inventory p)
             (have_inventory_bag (inventory p)) Hs).
  rewrite Hneeded in *.
  apply Forall_cons in Hs as [Hs1 Hs2]. apply Forall_cons in Hs2 as [Hs2 _].
  simpl in Hs1, Hs2.
  set (inv := inventory p) in *. set (bag := build_bag 0 inv ∅).
  destruct (inventory_bag_indices inv m1) as (Hasc1 & Hvalid1 & Hlen1).
  destruct (inventory_bag_indices inv m2) as (Hasc2 & Hvalid2 & Hlen2).
  fold bag in Hasc1, Hvalid1, Hlen1, Hasc2, Hvalid2, Hlen2.
  destruct (consume_material_exact n1 m1 bag inv _ eq_refl Hasc1)
    as (bag1 & inv1 & Hrun1 & Hother1 & Hcount1 & Hlength1 & Hframe1).
  { lia. }
  { intros j Hj. apply Hvalid1. by eapply subseteq_drop. }
  assert (Hbag1 : bag1 !! m2 = bag !! m2) by (apply Hother1; congruence).
  destruct (consume_material_exact n2 m2 bag1 inv1 _ eq_refl)
    as (bag2 & inv2 & Hrun2 & _ & Hcount2 & Hlength2 & _).
  { by rewrite Hbag1. }
  { rewrite Hbag1. lia. }
  { rewrite Hbag1. intros j Hj.
    assert (Hj2 : holds_id m2 inv j) by (apply Hvalid2; by eapply subseteq_drop).
    destruct Hj2 as (x & Hx & Hid). exists x. split; [|done].
    rewrite Hframe1; [done|].
    intros j1 Hj1. apply Horder; [by exists x|].
    apply Hvalid1. by eapply subseteq_drop. }
  simpl. rewrite Hrun1, Hrun2.
  eexists. split; [reflexivity|].
  exists inv2. split; [done|]. split.
  - intros id. specialize (Hcount1 id). specialize (Hcount2 id).
    unfold required_of. simpl.
    destruct (decide (m1 = id)), (decide (m2 = id)); lia.
  - rewrite length_app. unfold required_total. simpl. lia.
Qed.

(** C1.  With three scrap metal followed by one duct tape in the
    inventory the materials of the scavenger helmet are all there, the
    craft succeeds, and the duct tape is not consumed: its index, recorded
    before the scrap metal was spliced out, lies past the end of the
    shortened inventory.  The inventory goes from 4 items to 2, not to
    4 - (3 + 1) + 1 = 1. *)
Theorem craft_stale_index_keeps_material :
  let inv := [scrap; scrap; scrap; tape] in
  let needed := [("scrap_metal", 3%nat); ("duct_tape", 1%nat)] in
  let crafted :=
    mkItem "scav_helmet_1700" "Scavenger Helmet" "head" "uncommon"
           [("defense", SNum 5)] "crafting" 1701 None in
  sufficient needed inv /\
  craftItem (veteran inv) "scav_helmet" 1700 1701
  = (veteran [tape; crafted], CraftSuccess crafted) /\
  ~ craft_exact needed inv [tape; crafted] crafted.
Proof.
  intros inv needed crafted. split; [|split].
  - unfold sufficient, needed. repeat constructor.
  - vm_compute. reflexivity.
  - intros (rest & Hrest & Hcount & Hlen).
    vm_compute in Hlen. lia.
Qed.

(** With the duct tape in front of the scrap metal the scavenger helmet
    consumes exactly what it requires. *)
Lemma craft_exact_when_tape_first :
  exists inv',
    craftItem (veteran [tape; scrap; scrap; scrap]) "scav_helmet" 1700 1701
    = (set_inventory inv' (veteran [tape; scrap; scrap; scrap]),
       CraftSuccess
         (mkItem "scav_helmet_1700" "Scavenger Helmet" "head" "uncommon"
                 [("defense", SNum 5)] "crafting" 1701 None)) /\
    craft_exact [("scrap_metal", 3%nat); ("duct_tape", 1%nat)]
                [tape; scrap; scrap; scrap] inv'
                (mkItem "scav_helmet_1700" "Scavenger Helmet" "head" "uncommon"
                        [("defense", SNum 5)] "crafting" 1701 None).
Proof.
  apply (craft_exact_when_later_material_first
           (veteran [tape; scrap; scrap; scrap]) "scav_helmet"
           (mkRecipe "Scavenger Helmet" "head" "uncommon"
                     [("scrap_metal", 3%nat); ("duct_tape", 1%nat)]
                     [("defense", SNum 5)])
           "scrap_metal" 3 "duct_tape" 1 1700 1701).
  - reflexivity.
  - reflexivity.
  - discriminate.
  - unfold sufficient. repeat constructor.
  - intros i j (x & Hx & Hidx) (y & Hy & Hidy).
    destruct i as [|[|[|[|i]]]]; simpl in Hx; try discriminate;
      injection Hx as <-; try discriminate Hidx.
    destruct j as [|[|[|[|j]]]]; simpl in Hy; try discriminate;
      try lia; injection Hy as <-; discriminate Hidy.
Defined.

(** The stale index can also hit an item of another identifier: here the
    laser rifle is spliced out in place of the duct tape. *)
Lemma craft_stale_index_removes_other_item :
  let other id ty := mkItem id id ty "rare" [] "Vault 13" 0 None in
  map item_id
      (inventory
         (craftItem (veteran [scrap; scrap; scrap; tape; other "med_x" "consumable";
                              other "ammo_pack" "consumable";
                              other "laser_rifle" "weapon"])
                    "scav_helmet" 1700 1701).1)
  = ["duct_tape"; "med_x"; "ammo_pack"; "scav_helmet_1700"].
Proof. vm_compute. reflexivity. Qed.

(** ** The loot roller *)

















(** ** The player store *)

Lemma ensurePlayer_unknown w (players : gmap string Player) :
  players !! w = None ->
  ensurePlayer w players = (<[w := default_player w]> players, default_player w).
Proof. intros H. unfold ensurePlayer. by rewrite H. Qed.

Lemma ensurePlayer_known w (players : gmap string Player) p :
  players !! w = Some p -> ensurePlayer w players = (players, p).
Proof. intros H. unfold ensurePlayer. by rewrite H. Qed.




(** ** The claim handler *)

Lemma locations_nonempty_id cfg locationId loc :
  locations cfg locationId = Some loc -> String.eqb locationId "" = false.
Proof.
  destruct (String.eqb_spec locationId "") as [->|]; [|done].
  by vm_compute.
Qed.

Lemma rollEncounter_frame p roll :
  let p' := (rollEncounter p roll).1 in
  wallet p' = wallet p /\ caps p' = caps p /\ lvl p' = lvl p /\ xp p' = xp p /\
  max_hp p' = max_hp p /\ inventory p' = inventory p /\ gear p' = gear p /\
  cooldowns_claim p' = cooldowns_claim p.
Proof.
  unfold rollEncounter.
  destruct (Qlt_bool roll (18 # 100)); [by repeat split|].
  destruct (Qlt_bool roll (28 # 100)); [by repeat split|].
  destruct (Qlt_bool roll (34 # 100)); by repeat split.
Qed.

(** Reward resolution of a player of level at least 1 finishes, grants
    [12 + rarityBonus + capsMod] caps and records the claim time. *)
Lemma resolve_rewards_commits cfg fuel loc locationId eventName now
      rand_loot rand_encounter p :
  1 <= lvl p ->
  (Z.to_nat (passes (xp p + 18) (lvl p * 100)) <= fuel)%nat ->
  exists r,
    resolve_rewards cfg fuel loc locationId eventName now rand_loot rand_encounter p
    = Some r /\
    res_capsEarned r
    = 12 + rarityBonus (rollLoot (loc_lootTable loc) (set_cooldowns_claim now p) rand_loot)
      + event_capsMod eventName locationId /\
    caps (res_player r) = caps p + res_capsEarned r /\
    cooldowns_claim (res_player r) = now /\
    wallet (res_player r) = wallet p /\
    res_lootItem r
    = option_map (loot_item cfg loc now)
                 (rollLoot (loc_lootTable loc) (set_cooldowns_claim now p) rand_loot) /\
    inventory (res_player r)
    = inventory p ++ match res_lootItem r with Some it => [it] | None => [] end.
Proof.
  intros Hlvl Hfuel. unfold resolve_rewards.
  set (p1 := set_cooldowns_claim now p).
  set (loot := rollLoot (loc_lootTable loc) p1 rand_loot).
  set (lootItem := option_map (loot_item cfg loc now) loot).
  set (p2 := match lootItem with
             | Some it => set_inventory (inventory p1 ++ [it]) p1
             | None => p1
             end).
  assert (Hp2 : wallet p2 = wallet p /\ caps p2 = caps p /\ lvl p2 = lvl p /\
                xp p2 = xp p /\ cooldowns_claim p2 = now /\
                inventory p2
                = inventory p ++ match lootItem with Some it => [it] | None => [] end).
  { unfold p2. destruct lootItem; simpl; repeat split; try done.
    by rewrite app_nil_r. }
  destruct Hp2 as (Hw2 & Hc2 & Hl2 & Hx2 & Hcd2 & Hinv2).
  pose proof (rollEncounter_frame p2 rand_encounter) as Hframe.
  destruct (rollEncounter p2 rand_encounter) as [p3 encounter].
  simpl in Hframe. destruct Hframe as (Hw3 & Hc3 & Hl3 & Hx3 & _ & Hinv3 & _ & Hcd3).
  set (hpRisk := event_hpRisk eventName locationId).
  set (p4 := if 0 <? hpRisk then set_hp (Z.max 0 (hp p3 - hpRisk)) p3 else p3).
  assert (Hp4 : wallet p4 = wallet p3 /\ caps p4 = caps p3 /\ lvl p4 = lvl p3 /\
                xp p4 = xp p3 /\ cooldowns_claim p4 = cooldowns_claim p3 /\
                inventory p4 = inventory p3).
  { unfold p4. by destruct (0 <? hpRisk). }
  destruct Hp4 as (Hw4 & Hc4 & Hl4 & Hx4 & Hcd4 & Hinv4).
  rewrite grant_closed by (rewrite ?Hl4, ?Hx4, ?Hl3, ?Hx3, ?Hl2, ?Hx2; done).
  eexists. split; [reflexivity|].
  cbn [res_capsEarned res_player res_lootItem after_levels caps cooldowns_claim
       wallet inventory set_xp set_caps].
  repeat split; congruence.
Qed.

Section ClaimHandler.
(** A request that gets past validation: it names a wallet and a known
    location. *)
Context (cfg : Config) (distanceM : Q -> Q -> Q -> Q -> Q) (fuel : nat).
Context (req : ClaimRequest) (now : Z) (rand_loot rand_encounter : Q).
Context (players : gmap string Player) (w locationId : string) (loc : Location).
Hypothesis Hwallet : req_wallet req = Some w.
Hypothesis Hnonempty : w <> "".
Hypothesis Hlocation : req_locationId req = Some locationId.
Hypothesis Hknown : locations cfg locationId = Some loc.

(** The handler from [ensurePlayer] on. *)
Lemma claim_survival_validated net :
  claim_survival cfg distanceM fuel req now rand_loot rand_encounter net players
  = let '(players1, player) := ensurePlayer w players in
    if now - cooldowns_claim player <? COOLDOWN_MS cfg then
      Some (players1,
            ClaimCooldownActive (COOLDOWN_MS cfg - (now - cooldowns_claim player)))
    else
      match geofence_check cfg distanceM req loc with
      | Some response => Some (players1, response)
      | None =>
          match resolve_rewards cfg fuel loc locationId (req_eventName req)
                                now rand_loot rand_encounter player with
          | None => None
          | Some r =>
              Some (<[w := res_player r]> players1,
                    ClaimOk (mkClaimBody (loc_name loc) (res_lootItem r)
                               (res_encounter r) (res_capsEarned r) (res_leveledUp r)
                               (summary (res_player r))
                               (if negb (SIMULATE_MINT cfg)
                                then Some (maybeMintCapsOnChain cfg net) else None)
                               (cooldowns_claim (res_player r) + COOLDOWN_MS cfg)))
          end
      end.
Proof.
  unfold claim_survival. rewrite Hwallet, Hlocation. cbn [missing].
  rewrite (locations_nonempty_id _ _ _ Hknown).
  destruct (String.eqb_spec w "") as [|_]; [done|]. cbn [orb].
  by rewrite Hknown.
Qed.

(** C6.  A claim by a recorded player, at a known location, whose time
    since the last claim is less than the cooldown is answered "Cooldown
    active" with the remaining time, which is the cooldown minus the
    elapsed time, is positive and is at most the cooldown; the store is
    left exactly as it was. *)
Theorem claim_cooldown_rejects net p :
  players !! w = Some p ->
  0 <= now - cooldowns_claim p < COOLDOWN_MS cfg ->
  exists remaining,
    claim_survival cfg distanceM fuel req now rand_loot rand_encounter net players
    = Some (players, ClaimCooldownActive remaining) /\
    remaining = COOLDOWN_MS cfg - (now - cooldowns_claim p) /\
    0 < remaining <= COOLDOWN_MS cfg.
Proof.
  intros Hp Helapsed.
  exists (COOLDOWN_MS cfg - (now - cooldowns_claim p)).
  split; [|split; [reflexivity | lia]].
  rewrite claim_survival_validated, (ensurePlayer_known _ _ _ Hp).
  destruct (Z.ltb_spec (now - cooldowns_claim p) (COOLDOWN_MS cfg)); [done|lia].
Qed.

(** For a wallet without a record the check runs against the default
    record, whose last claim time is 0: the cooldown is active only while
    the clock reads less than the cooldown itself, and the store then
    gains the default record. *)
Lemma claim_cooldown_unknown_wallet net :
  players !! w = None ->
  now < COOLDOWN_MS cfg ->
  claim_survival cfg distanceM fuel req now rand_loot rand_encounter net players
  = Some (<[w := default_player w]> players,
          ClaimCooldownActive (COOLDOWN_MS cfg - now)).
Proof.
  intros Hnew Hnow.
  rewrite claim_survival_validated, (ensurePlayer_unknown _ _ Hnew).
  cbn [cooldowns_claim default_player]. rewrite Z.sub_0_r.
  destruct (Z.ltb_spec now (COOLDOWN_MS cfg)); [done|lia].
Qed.

(** C5.  When a claim passes the cooldown and geofence checks with real
    minting configured and the mint call fails, the handler still answers
    success: the stored player is the one reward resolution produced (caps
    raised by the earned amount, claim time set to now), exactly as when
    the mint succeeds; the response reports the earned amount and the
    resulting player, and carries the failure in its [chain] field. *)
Theorem claim_mint_failure_keeps_rewards detail p :
  (ensurePlayer w players).2 = p ->
  SIMULATE_MINT cfg = false ->
  COOLDOWN_MS cfg <= now - cooldowns_claim p ->
  (forall lat lng,
      req_lat req = Some lat -> req_lng req = Some lng ->
      out_of_range cfg loc (distanceM lat lng (loc_lat loc) (loc_lng loc)) = false) ->
  1 <= lvl p ->
  (Z.to_nat (passes (xp p + 18) (lvl p * 100)) <= fuel)%nat ->
  exists r body,
    resolve_rewards cfg fuel loc locationId (req_eventName req) now
                    rand_loot rand_encounter p = Some r /\
    claim_survival cfg distanceM fuel req now rand_loot rand_encounter
                   (MintThrew detail) players
    = Some (<[w := res_player r]> (ensurePlayer w players).1, ClaimOk body) /\
    caps (res_player r) = caps p + res_capsEarned r /\
    cooldowns_claim (res_player r) = now /\
    cb_capsEarned body = res_capsEarned r /\
    cb_capsEarned body
    = 12 + rarityBonus (rollLoot (loc_lootTable loc) (set_cooldowns_claim now p) rand_loot)
      + event_capsMod (req_eventName req) locationId /\
    cb_player body = summary (res_player r) /\
    cb_chain body = Some (ChainError "Mint failed" detail) /\
    (forall sig,
        exists body',
          claim_survival cfg distanceM fuel req now rand_loot rand_encounter
                         (Minted sig) players
          = Some (<[w := res_player r]> (ensurePlayer w players).1, ClaimOk body') /\
          cb_capsEarned body' = cb_capsEarned body /\
          cb_player body' = cb_player body).
Proof.
  intros Hp Hsim Hcool Hgeo Hlvl Hfuel.
  destruct (resolve_rewards_commits cfg fuel loc locationId (req_eventName req) now
              rand_loot rand_encounter p Hlvl Hfuel)
    as (r & Hr & Hearned & Hcaps & Hcd & _).
  assert (Hpass : geofence_check cfg distanceM req loc = None).
  { unfold geofence_check.
    destruct (req_lat req) as [lat|]; [|done].
    destruct (req_lng req) as [lng|]; [|done].
    by rewrite (Hgeo lat lng). }
  assert (Hrun : forall net,
             claim_survival cfg distanceM fuel req now rand_loot rand_encounter net players
             = Some (<[w := res_player r]> (ensurePlayer w players).1,
                     ClaimOk (mkClaimBody (loc_name loc) (res_lootItem r)
                                (res_encounter r) (res_capsEarned r) (res_leveledUp r)
                                (summary (res_player r))
                                (Some (maybeMintCapsOnChain cfg net))
                                (cooldowns_claim (res_player r) + COOLDOWN_MS cfg)))).
  { intros net. rewrite claim_survival_validated.
    destruct (ensurePlayer w players) as [players1 p0]. simpl in Hp. subst p0.
    destruct (Z.ltb_spec (now - cooldowns_claim p) (COOLDOWN_MS cfg)); [lia|].
    rewrite Hpass, Hr, Hsim. reflexivity. }
  exists r. eexists. split; [exact Hr|].
  split; [apply Hrun|].
  cbn [cb_capsEarned cb_player cb_chain].
  repeat (split; [done|]).
  split.
  { unfold maybeMintCapsOnChain. by rewrite Hsim. }
  intros sig. eexists. split; [apply Hrun|]. by cbn.
Qed.

End ClaimHandler.

Lemma claim_cooldown_rejects_witness :
  exists remaining,
    claim_survival sample_config on_the_spot 0 sample_request 1700000600000
                   0 (1 # 2) (Minted "sig") sample_store
    = Some (sample_store, ClaimCooldownActive remaining) /\
    remaining = 3600000 - (1700000600000 - 1700000000000) /\
    0 < remaining <= 3600000.
Proof.
  refine (claim_cooldown_rejects sample_config on_the_spot 0%nat sample_request
            1700000600000 0 (1 # 2) sample_store "vault_dweller" "vault13" vault13
            _ _ _ _ (Minted "sig") recent_claimer _ _).
  - reflexivity.
  - discriminate.
  - reflexivity.
  - reflexivity.
  - vm_compute. reflexivity.
  - vm_compute. split; discriminate || reflexivity.
Defined.

Lemma claim_mint_failure_keeps_rewards_witness :
  exists r body,
    resolve_rewards sample_config 1 vault13 "vault13" None 1700003600000
                    0 (1 # 2) recent_claimer = Some r /\
    claim_survival sample_config on_the_spot 1 sample_request 1700003600000
                   0 (1 # 2) (MintThrew "Error: rpc unreachable") sample_store
    = Some (<["vault_dweller" := res_player r]> sample_store, ClaimOk body) /\
    caps (res_player r) = 12 /\
    cooldowns_claim (res_player r) = 1700003600000 /\
    cb_capsEarned body = 12 /\
    cb_chain body = Some (ChainError "Mint failed" "Error: rpc unreachable").
Proof.
  destruct (claim_mint_failure_keeps_rewards sample_config on_the_spot 1%nat
              sample_request 1700003600000 0 (1 # 2) sample_store
              "vault_dweller" "vault13" vault13)
    with (detail := "Error: rpc unreachable") (p := recent_claimer)
    as (r & body & Hr & Hrun & Hcaps & Hcd & Hearned & Hamount & _ & Hchain & _).
  - reflexivity.
  - discriminate.
  - reflexivity.
  - reflexivity.
  - vm_compute. reflexivity.
  - reflexivity.
  - vm_compute. discriminate.
  - intros lat lng H. discriminate H.
  - vm_compute. discriminate.
  - vm_compute. lia.
  - exists r, body.
    assert (Hval : res_capsEarned r = 12).
    { rewrite <- Hearned, Hamount. vm_compute. reflexivity. }
    split; [exact Hr|]. split; [exact Hrun|].
    split; [rewrite Hcaps, Hval; reflexivity|].
    split; [exact Hcd|].
    split; [rewrite Hearned; exact Hval|].
    exact Hchain.
Defined.

(** * Further properties of the code *)

(** ** [ensurePlayer] *)


(** ** [grantCapsAndXp] *)

(** X2.  For a player of level at least 1 and a grant that leaves the
    experience non-negative, [grantCapsAndXp] returns; it adds the caps,
    never lowers the level, reports a level-up exactly when the level rose,
    leaves an experience below the threshold it started with, accounts for
    every point of experience (each level gained costs the starting
    threshold), raises maximum health by 10 per level gained and refills
    health only when a level was gained; inventory, gear, reputation and
    claim time are untouched. *)
Theorem grant_keeps_progression fuel p capsEarned xpEarned :
  1 <= lvl p ->
  0 <= xp p + xpEarned ->
  (Z.to_nat (passes (xp p + xpEarned) (lvl p * 100)) <= fuel)%nat ->
  exists p' leveledUp,
    grantCapsAndXp fuel p capsEarned xpEarned = Some (p', leveledUp) /\
    caps p' = caps p + capsEarned /\
    lvl p <= lvl p' /\
    (leveledUp = true <-> lvl p < lvl p') /\
    0 <= xp p' < lvl p * 100 /\
    xp p + xpEarned = xp p' + (lvl p' - lvl p) * (lvl p * 100) /\
    max_hp p' = max_hp p + 10 * (lvl p' - lvl p) /\
    (lvl p < lvl p' -> hp p' = max_hp p') /\
    (lvl p' = lvl p -> hp p' = hp p) /\
    inventory p' = inventory p /\ gear p' = gear p /\
    factionRep p' = factionRep p /\ cooldowns_claim p' = cooldowns_claim p /\
    wallet p' = wallet p.
Proof.
  intros Hl Hx Hfuel. rewrite grant_closed by done.
  set (t := lvl p * 100) in *. set (x := xp p + xpEarned) in *.
  assert (Ht : 0 < t) by (unfold t; lia).
  assert (Hk : passes x t = x / t).
  { unfold passes. assert (0 <= x / t) by (apply Z.div_pos; lia). lia. }
  rewrite Hk.
  pose proof (Z.div_mod x t ltac:(lia)) as Hdm.
  pose proof (Z.mod_pos_bound x t Ht) as Hmod.
  assert (Hk0 : 0 <= x / t) by (apply Z.div_pos; lia).
  set (k := x / t) in *. set (r := x mod t) in *.
  eexists _, _. split; [reflexivity|].
  cbn [after_levels caps lvl xp hp max_hp inventory gear factionRep cooldowns_claim
       wallet set_xp set_caps].
  fold x.
  replace (x - k * t) with r by lia.
  replace (lvl p + k - lvl p) with k by lia.
  split; [done|]. split; [lia|]. split.
  { rewrite Z.ltb_lt. lia. }
  split; [done|]. split; [lia|]. split; [lia|].
  split.
  { intros Hup. destruct (Z.ltb_spec 0 k); [done|lia]. }
  split.
  { intros Hsame. destruct (Z.ltb_spec 0 k); [lia|done]. }
  done.
Qed.

Lemma grant_keeps_progression_witness :
  exists p' leveledUp,
    grantCapsAndXp 1 (default_player "vault_dweller") 12 118 = Some (p', leveledUp) /\
    caps p' = 12 /\ lvl p' = 2 /\ leveledUp = true /\ xp p' = 18.
Proof.
  destruct (grant_keeps_progression 1 (default_player "vault_dweller") 12 118)
    as (p' & b & Hrun & Hcaps & _).
  - simpl. lia.
  - simpl. lia.
  - vm_compute. lia.
  - exists p', b. split; [exact Hrun|].
    vm_compute in Hrun. injection Hrun as <- <-. vm_compute. auto.
Defined.

(** X3.  For a player of level 0 or less whose experience after the grant
    reaches the (non-positive) threshold, the leveling loop never ends:
    [grantCapsAndXp] returns for no amount of fuel. *)
Theorem grant_never_returns_below_level_one fuel p capsEarned xpEarned :
  lvl p <= 0 ->
  lvl p * 100 <= xp p + xpEarned ->
  grantCapsAndXp fuel p capsEarned xpEarned = None.
Proof.
  intros Hl Hx. unfold grantCapsAndXp.
  apply level_loop_diverges; simpl; lia.
Qed.

Lemma grant_never_returns_below_level_one_witness :
  grantCapsAndXp 1000 (set_lvl 0 (default_player "vault_dweller")) 12 18 = None.
Proof.
  apply (grant_never_returns_below_level_one 1000
           (set_lvl 0 (default_player "vault_dweller")) 12 18).
  - simpl. lia.
  - simpl. lia.
Defined.

(** ** [rollEncounter] *)

Lemma Qlt_bool_iff a b : Qlt_bool a b = true <-> (a < b)%Q.
Proof.
  unfold Qlt_bool. rewrite negb_true_iff. split.
  - intros H. apply Qnot_le_lt. intros Hle. apply Qle_bool_iff in Hle. congruence.
  - intros H. destruct (Qle_bool b a) eqn:E; [|done].
    apply Qle_bool_iff in E. lra.
Qed.



(** ** [equipItem] *)

Lemma gear_set_twice slot it g : gear_set slot it (gear_set slot it g) = gear_set slot it g.
Proof. by destruct slot. Qed.

(** X5.  Equipping is idempotent: a second equip of the same identifier
    returns the same result and leaves the player the first equip left. *)
Theorem equip_twice_is_equip_once p itemId :
  equipItem (equipItem p itemId).1 itemId = equipItem p itemId.
Proof.
  unfold equipItem.
  destruct (List.find _ (inventory p)) as [it|] eqn:Hfind; simpl; [|by rewrite Hfind].
  destruct (slot_of_type (item_type it)) as [slot|] eqn:Hslot; simpl;
    [|by rewrite Hfind, Hslot].
  destruct (truthy (stat_get "defense" (item_stats it))) eqn:Hdef; simpl;
    rewrite Hfind, Hslot, Hdef; simpl; rewrite gear_set_twice; [|done].
  f_equal. unfold set_hp, set_max_hp, set_gear. simpl. f_equal. lia.
Qed.



(** ** [craftItem] *)


Lemma craft_success_shape_witness :
  exists rest,
    craftItem (veteran [scrap; scrap; scrap; tape]) "scav_helmet" 1700 1701
    = (set_inventory
         (rest ++ [mkItem "scav_helmet_1700" "Scavenger Helmet" "head" "uncommon"
                          [("defense", SNum 5)] "crafting" 1701 None])
         (veteran [scrap; scrap; scrap; tape]),
       CraftSuccess (mkItem "scav_helmet_1700" "Scavenger Helmet" "head" "uncommon"
                            [("defense", SNum 5)] "crafting" 1701 None)) /\
    rest `sublist_of` [scrap; scrap; scrap; tape] /\
    (4 <= length rest + 4)%nat.
Proof.
  apply (craft_success_shape (veteran [scrap; scrap; scrap; tape]) "scav_helmet"
           (mkRecipe "Scavenger Helmet" "head" "uncommon"
                     [("scrap_metal", 3%nat); ("duct_tape", 1%nat)]
                     [("defense", SNum 5)]) 1700 1701).
  - reflexivity.
  - unfold sufficient. repeat constructor.
Defined.

Lemma bag_push_members bag id idx m i :
  i ∈ default [] (bag_push bag id idx !! m) <->
  i ∈ default [] (bag !! m) \/ (id = m /\ i = idx).
Proof.
  unfold bag_push. destruct (decide (id = m)) as [->|Hne].
  - rewrite lookup_insert_eq. simpl. rewrite elem_of_app, list_elem_of_singleton. tauto.
  - rewrite lookup_insert_ne by done. split; [by left | by intros [?|[? _]]].
Qed.

Lemma build_bag_members (inv : list Item) :
  forall idx bag m i,
    i ∈ default [] (build_bag idx inv bag !! m) <->
    i ∈ default [] (bag !! m) \/
    exists j x, inv !! j = Some x /\ item_id x = m /\ i = (idx + j)%nat.
Proof.
  induction inv as [|it inv IH]; intros idx bag m i; simpl.
  - split; [by left|]. intros [H|(j & x & H & _)]; [done|]. by rewrite lookup_nil in H.
  - rewrite IH, bag_push_members. split.
    + intros [[H|[Hid ->]]|(j & x & Hj & Hid & ->)].
      * by left.
      * right. exists 0%nat, it. simpl. split; [done|]. split; [done|lia].
      * right. exists (S j), x. simpl. split; [done|]. split; [done|lia].
    + intros [H|(j & x & Hj & Hid & ->)]; [by left; left|].
      destruct j as [|j]; simpl in Hj.
      * injection Hj as <-. left. right. split; [done|lia].
      * right. exists j, x. split; [done|]. split; [done|lia].
Qed.

(** X10.  The bag [craftItem] builds from the inventory maps every
    identifier to the increasing list of exactly the positions that hold
    an item of that identifier, so its length is the number of such
    items. *)
Theorem bag_lists_positions (inv : list Item) m :
  let idxs := default [] (build_bag 0 inv ∅ !! m) in
  ascending idxs /\
  (forall j, j ∈ idxs <-> holds_id m inv j) /\
  length idxs = count_id m inv.
Proof.
  cbv zeta. destruct (inventory_bag_indices inv m) as (Hasc & _ & Hlen).
  split; [done|]. split; [|done].
  intros j. rewrite build_bag_members, lookup_empty. simpl. split.
  - intros [H|(i & x & Hi & Hid & ->)]; [by apply elem_of_nil in H|].
    by exists x.
  - intros (x & Hx & Hid). right. by exists j, x.
Qed.

(** ** [rollLoot] *)

Lemma pick_elem (l : list LootEntry) : forall r e, pick r l = Some e -> e ∈ l.
Proof.
  induction l as [|x l IH]; intros r e; simpl; [done|].
  destruct (Qle_bool _ 0).
  - intros [= ->]. by left.
  - intros H. right. by eapply IH.
Qed.

(** X11.  An entry the roll returns is an entry of the table with its
    weight adjusted: identifier, name, type, rarity and stats are those of
    a table entry. *)
Theorem rollLoot_returns_table_entry (table : list LootEntry) p rand e :
  rollLoot table p rand = Some e ->
  exists base,
    base ∈ table /\
    e = adjust_entry (repBonus p) base /\
    loot_id e = loot_id base /\ loot_name e = loot_name base /\
    loot_type e = loot_type base /\ loot_rarity e = loot_rarity base /\
    loot_stats e = loot_stats base.
Proof.
  unfold rollLoot. intros H. apply pick_elem in H.
  apply list_elem_of_fmap in H as (base & -> & Hbase).
  exists base. by repeat split.
Qed.

Lemma rollLoot_returns_table_entry_witness :
  exists base,
    base ∈ loc_lootTable vault13 /\
    loot_id base = "duct_tape" /\ loot_rarity base = "common".
Proof.
  destruct (rollLoot_returns_table_entry (loc_lootTable vault13)
              (default_player "vault_dweller") 0
              (adjust_entry (repBonus (default_player "vault_dweller"))
                 (mkLoot "duct_tape" "Duct Tape" "material" 40 "common"
                         [("value", SNum 1)])))
    as (base & Hin & _ & Hid & _ & _ & Hrar & _).
  - vm_compute. reflexivity.
  - exists base. split; [exact Hin|]. split; [by rewrite <- Hid | by rewrite <- Hrar].
Defined.


Lemma repBonus_saturated p :
  100 <= brotherhood (factionRep p) -> repBonus p = (20 # 100)%Q.
Proof.
  intros H. unfold repBonus, Qmin, GenericMinMax.gmin.
  destruct (Qcompare _ _) eqn:E; try done.
  exfalso. apply Qgt_alt in E. unfold Qlt in E. simpl in E. lia.
Qed.

(** X13.  Brotherhood reputation beyond 100 changes nothing: two players
    with reputation 100 or more get the same result from the same table
    and draw. *)
Theorem rollLoot_reputation_saturates (table : list LootEntry) p q rand :
  100 <= brotherhood (factionRep p) ->
  100 <= brotherhood (factionRep q) ->
  rollLoot table p rand = rollLoot table q rand.
Proof.
  intros Hp Hq. unfold rollLoot.
  by rewrite (repBonus_saturated p Hp), (repBonus_saturated q Hq).
Qed.

Lemma rollLoot_reputation_saturates_witness :
  rollLoot (loc_lootTable vault13)
           (set_factionRep (mkRep 100 0 0) (default_player "a")) (7 # 10)
  = rollLoot (loc_lootTable vault13)
             (set_factionRep (mkRep 5000 0 0) (default_player "b")) (7 # 10).
Proof.
  apply (rollLoot_reputation_saturates (loc_lootTable vault13)
           (set_factionRep (mkRep 100 0 0) (default_player "a"))
           (set_factionRep (mkRep 5000 0 0) (default_player "b")) (7 # 10)).
  - simpl. lia.
  - simpl. lia.
Defined.

(** X14.  On a table without rare or legendary entries the player plays
    no part: every player gets the same result from the same draw. *)
Theorem rollLoot_common_table_ignores_player (table : list LootEntry) p q rand :
  Forall (fun e => is_rare_or_legendary (loot_rarity e) = false) table ->
  rollLoot table p rand = rollLoot table q rand.
Proof.
  intros Hcommon. unfold rollLoot.
  assert (Hmap : map (adjust_entry (repBonus p)) table
                 = map (adjust_entry (repBonus q)) table).
  { induction Hcommon as [|e l He _ IH]; simpl; [done|].
    rewrite IH. f_equal. unfold adjust_entry, entry_bonus. by rewrite He. }
  by rewrite Hmap.
Qed.

Lemma rollLoot_common_table_ignores_player_witness :
  rollLoot (take 2 (loc_lootTable vault13)) outcast (7 # 10)
  = rollLoot (take 2 (loc_lootTable vault13)) (default_player "b") (7 # 10).
Proof.
  apply (rollLoot_common_table_ignores_player (take 2 (loc_lootTable vault13))
           outcast (default_player "b") (7 # 10)).
  repeat constructor.
Defined.

(** ** The claim handler, continued *)

Lemma level_loop_frame fuel :
  forall t p b p' b',
    level_loop fuel t p b = Some (p', b') ->
    wallet p' = wallet p /\ caps p' = caps p /\ inventory p' = inventory p /\
    gear p' = gear p /\ factionRep p' = factionRep p /\
    cooldowns_claim p' = cooldowns_claim p.
Proof.
  induction fuel as [|fuel IH]; intros t p b p' b'; simpl;
    destruct (t <=? xp p); try done; try (by intros [= <- <-]).
  intros H. apply IH in H. by destruct p.
Qed.

(** Whatever reward resolution returns carries the claim time. *)
Lemma resolve_rewards_claim_time cfg fuel loc locationId eventName now
      rand_loot rand_encounter p r :
  resolve_rewards cfg fuel loc locationId eventName now rand_loot rand_encounter p
  = Some r ->
  cooldowns_claim (res_player r) = now.
Proof.
  unfold resolve_rewards.
  set (p2 := match option_map _ _ with Some it => _ | None => _ end).
  assert (Hp2 : cooldowns_claim p2 = now) by (unfold p2; by destruct (option_map _ _)).
  pose proof (rollEncounter_frame p2 rand_encounter) as Hframe.
  destruct (rollEncounter p2 rand_encounter) as [p3 encounter].
  simpl in Hframe. destruct Hframe as (_ & _ & _ & _ & _ & _ & _ & Hcd3).
  set (p4 := if 0 <? _ then _ else p3).
  assert (Hp4 : cooldowns_claim p4 = now)
    by (unfold p4; destruct (0 <? _); simpl; congruence).
  unfold grantCapsAndXp.
  destruct (level_loop _ _ _ _) as [[p5 b]|] eqn:E; [|done].
  intros [= <-]. apply level_loop_frame in E as (_ & _ & _ & _ & _ & Hcd).
  simpl in *. congruence.
Qed.

(** A successful response comes from reward resolution on the player of
    the request's wallet. *)
Lemma claim_ok_inv cfg distanceM fuel req now rand_loot rand_encounter net
      (players : gmap string Player) s body :
  claim_survival cfg distanceM fuel req now rand_loot rand_encounter net players
  = Some (s, ClaimOk body) ->
  exists w locationId loc r,
    req_wallet req = Some w /\ w <> "" /\
    req_locationId req = Some locationId /\
    locations cfg locationId = Some loc /\
    resolve_rewards cfg fuel loc locationId (req_eventName req) now
                    rand_loot rand_encounter (ensurePlayer w players).2 = Some r /\
    s = <[w := res_player r]> (ensurePlayer w players).1 /\
    cb_cooldownEndsAt body = cooldowns_claim (res_player r) + COOLDOWN_MS cfg.
Proof.
  unfold claim_survival.
  destruct (req_wallet req) as [w|] eqn:Hw; [|done].
  destruct (req_locationId req) as [locationId|] eqn:Hloc; [|done].
  cbn [missing].
  destruct (String.eqb_spec w "") as [|Hne]; [done|].
  destruct (String.eqb locationId ""); [done|]. cbn [orb].
  destruct (locations cfg locationId) as [loc|] eqn:Hknown; [|done].
  destruct (ensurePlayer w players) as [players1 player] eqn:Hens.
  destruct (now - cooldowns_claim player <? COOLDOWN_MS cfg); [done|].
  destruct (geofence_check cfg distanceM req loc) as [response|] eqn:Hgeo.
  { unfold geofence_check in Hgeo.
    destruct (req_lat req); [|done]. destruct (req_lng req); [|done].
    destruct (out_of_range _ _ _); [|done].
    injection Hgeo as <-. discriminate. }
  destruct (resolve_rewards _ _ _ _ _ _ _ _ _) as [r|] eqn:Hr; [|done].
  intros [= <- <-]. exists w, locationId, loc, r. rewrite Hens. by repeat split.
Qed.










Lemma js_round_near x :
  (inject_Z (js_round x) - (1 # 2) <= x < inject_Z (js_round x) + (1 # 2))%Q.
Proof.
  unfold js_round.
  pose proof (Qfloor_le (x + (1 # 2))) as Hlo.
  pose proof (Qlt_floor (x + (1 # 2))) as Hhi.
  rewrite inject_Z_plus in Hhi. change (inject_Z 1) with 1%Q in Hhi.
  split; lra.
Qed.

Section ValidatedClaim.
Context (cfg : Config) (distanceM : Q -> Q -> Q -> Q -> Q) (fuel : nat).
Context (req : ClaimRequest) (now : Z) (rand_loot rand_encounter : Q).
Context (players : gmap string Player) (w locationId : string) (loc : Location).
Hypothesis Hwallet : req_wallet req = Some w.
Hypothesis Hnonempty : w <> "".
Hypothesis Hlocation : req_locationId req = Some locationId.
Hypothesis Hknown : locations cfg locationId = Some loc.

(** X16.  A claim that passed the cooldown and reports coordinates
    farther from the location than the allowed radius (the location's own
    radius, or the default one when that is 0) is answered "Out of range"
    with the distance rounded to the nearest metre and the location's own
    radius; the player's claim time is not consumed and nothing is
    granted: a recorded player leaves the store as it was.  A distance
    equal to the radius is in range. *)
Theorem claim_out_of_range_grants_nothing net p lat lng :
  (ensurePlayer w players).2 = p ->
  COOLDOWN_MS cfg <= now - cooldowns_claim p ->
  req_lat req = Some lat ->
  req_lng req = Some lng ->
  let dist := distanceM lat lng (loc_lat loc) (loc_lng loc) in
  ((allowed_radius cfg loc < dist)%Q ->
   claim_survival cfg distanceM fuel req now rand_loot rand_encounter net players
   = Some ((ensurePlayer w players).1,
           ClaimOutOfRange (js_round dist) (loc_radiusM loc)) /\
   (inject_Z (js_round dist) - (1 # 2) <= dist < inject_Z (js_round dist) + (1 # 2))%Q /\
   (players !! w = Some p -> (ensurePlayer w players).1 = players)) /\
  ((dist <= allowed_radius cfg loc)%Q ->
   geofence_check cfg distanceM req loc = None).
Proof.
  intros Hp Hcool Hlat Hlng dist.
  assert (Hout : out_of_range cfg loc dist = true <-> (allowed_radius cfg loc < dist)%Q).
  { unfold out_of_range. fold (allowed_radius cfg loc). apply Qlt_bool_iff. }
  split.
  - intros Hfar. split; [|split].
    + rewrite (claim_survival_validated cfg distanceM fuel req now rand_loot
                 rand_encounter players w locationId loc Hwallet Hnonempty
                 Hlocation Hknown net).
      destruct (ensurePlayer w players) as [players1 p0]. simpl in Hp. subst p0.
      destruct (Z.ltb_spec (now - cooldowns_claim p) (COOLDOWN_MS cfg)); [lia|].
      unfold geofence_check. rewrite Hlat, Hlng. fold dist.
      apply Hout in Hfar. by rewrite Hfar.
    + apply js_round_near.
    + intros Hrec. by rewrite (ensurePlayer_known _ _ _ Hrec).
  - intros Hnear. unfold geofence_check. rewrite Hlat, Hlng. fold dist.
    destruct (out_of_range cfg loc dist) eqn:E; [|done].
    destruct Hout as [Hfar _]. specialize (Hfar eq_refl). lra.
Qed.


End ValidatedClaim.


Lemma claim_out_of_range_grants_nothing_witness :
  claim_survival sample_config far_away 1 located_request 1700003600000
                 0 (1 # 2) (Minted "sig") sample_store
  = Some (sample_store, ClaimOutOfRange 500 100).
Proof.
  destruct (claim_out_of_range_grants_nothing sample_config far_away 1%nat
              located_request 1700003600000 0 (1 # 2) sample_store
              "vault_dweller" "vault13" vault13 eq_refl ltac:(discriminate)
              eq_refl eq_refl (Minted "sig") recent_claimer 36%Q (-115)%Q)
    as [Hfar _].
  - vm_compute. reflexivity.
  - vm_compute. discriminate.
  - reflexivity.
  - reflexivity.
  - destruct Hfar as (Hrun & _ & Hstore); [reflexivity|].
    rewrite Hrun, Hstore; [reflexivity|]. vm_compute. reflexivity.
Defined.


(** X18.  After a successful claim, any further claim by the same wallet
    at a configured location made less than the cooldown later is answered
    "Cooldown active" with the time left until the end the first response
    announced, and changes nothing -- whatever its location, coordinates,
    event name and draws. *)
Theorem claim_then_claim_is_rejected cfg distanceM fuel req now rand_loot
        rand_encounter net (players : gmap string Player) s body
        distanceM' fuel' req' now' rand_loot' rand_encounter' net' locationId' loc' :
  claim_survival cfg distanceM fuel req now rand_loot rand_encounter net players
  = Some (s, ClaimOk body) ->
  req_wallet req' = req_wallet req ->
  req_locationId req' = Some locationId' ->
  locations cfg locationId' = Some loc' ->
  now <= now' < now + COOLDOWN_MS cfg ->
  claim_survival cfg distanceM' fuel' req' now' rand_loot' rand_encounter' net' s
  = Some (s, ClaimCooldownActive (cb_cooldownEndsAt body - now')) /\
  0 < cb_cooldownEndsAt body - now' <= COOLDOWN_MS cfg.
Proof.
  intros Hfirst Hsame Hloc' Hknown' Hnow.
  apply claim_ok_inv in Hfirst
    as (w & locationId & loc & r & Hw & Hne & _ & _ & Hr & -> & Hend).
  apply resolve_rewards_claim_time in Hr.
  rewrite Hw in Hsame.
  rewrite (claim_survival_validated cfg distanceM' fuel' req' now' rand_loot'
             rand_encounter' _ w locationId' loc' Hsame Hne Hloc' Hknown' net').
  rewrite (ensurePlayer_known w _ (res_player r)) by apply lookup_insert_eq.
  rewrite Hend, Hr.
  destruct (Z.ltb_spec (now' - now) (COOLDOWN_MS cfg)); [|lia].
  split; [|lia]. do 3 f_equal. lia.
Qed.

Lemma claim_then_claim_is_rejected_witness :
  exists s body,
    claim_survival sample_config on_the_spot 1 sample_request 1700003600000
                   0 (1 # 2) (Minted "sig") sample_store
    = Some (s, ClaimOk body) /\
    claim_survival sample_config far_away 0 located_request 1700003601000
                   (1 # 3) (1 # 4) (MintThrew "down") s
    = Some (s, ClaimCooldownActive (cb_cooldownEndsAt body - 1700003601000)) /\
    0 < cb_cooldownEndsAt body - 1700003601000 <= 3600000.
Proof.
  eexists _, _. split; [vm_compute; reflexivity|].
  refine (claim_then_claim_is_rejected sample_config on_the_spot 1%nat sample_request
            1700003600000 0 (1 # 2) (Minted "sig") sample_store _ _
            far_away 0%nat located_request 1700003601000 (1 # 3) (1 # 4)
            (MintThrew "down") "vault13" vault13 _ _ _ _ _).
  - vm_compute. reflexivity.
  - reflexivity.
  - reflexivity.
  - reflexivity.
  - vm_compute. split; [discriminate | reflexivity].
Defined.

(** ** The store invariant *)











(** ** [GET /events] *)




(** ** [POST /factions/adjust] *)




(** ** [POST /equip] and [POST /craft] *)



(** ** Crafting, then equipping *)




(** ** Balances and levels over a run *)









